(** * SegmentedBuffer: one allocation carved into named segments

    A shallow embedding of [include/segmented_buffer/segmented_buffer.hpp]
    and the properties of its layout algorithm.

    Conventions of the embedding:
    - a [std::size_t] is a [Z] in [[0, 2^w)]; every arithmetic operation of
      the source on [std::size_t] is followed by [wrap];
    - a template parameter pack of tag types is a [list Tag]; the tag types
      themselves are values of a type with decidable equality
      ([std::is_same_v] is [is_same_v]);
    - a program the compiler refuses (a failed [requires] clause, a deleted
      function, an incomplete type) evaluates to [Err ill_formed];
    - an access the language leaves undefined evaluates to [Err undefined];
    - the free store is an explicit [Memory]: a table of blocks together with
      the log of the requests made to the allocation function. *)

From Stdlib Require Import ZArith Lia.
From stdpp Require Import base decidable option list numbers.

Local Open Scope Z_scope.

(** ** Outcomes *)

Inductive error : Set :=
  | ill_formed             (* rejected by the compiler *)
  | undefined              (* undefined behaviour at run time *)
  | bad_alloc              (* the allocation function threw *)
  | bad_array_new_length.  (* the new-expression threw before allocating *)

Inductive result (A : Type) : Type :=
  | Ok (a : A)
  | Err (e : error).
Arguments Ok {A} a.
Arguments Err {A} e.

#[global] Instance result_ret : MRet result := fun A a => Ok a.

#[global] Instance result_bind : MBind result := fun A B k r =>
  match r with
  | Ok a => k a
  | Err e => Err e
  end.

(** ** The platform: width of [std::size_t] and the allocator's answers *)

Class Platform := {
  size_bits : N;
  alloc_ok : Z → bool;
}.

Section size_t.
Context `{Platform}.

Definition size_mod : Z := 2 ^ Z.of_N size_bits.

Definition wrap (z : Z) : Z := z mod size_mod.

Definition is_size_t (z : Z) : Prop := 0 ≤ z < size_mod.
End size_t.

(** ** The element type

    An instance describes an element type that can be value-initialised; a
    type without a default constructor, for which the new-expression inside
    [std::make_unique] does not compile, has no instance.  [max_length] is
    the implementation's limit on the length of an array of the type in a
    new-expression (the largest length whose size in bytes the
    implementation accepts). *)

Class Element (U : Type) := {
  value_init : U;                       (* [Underlier{}] *)
  is_trivially_copyable_v : bool;
  is_trivially_destructible_v : bool;
  max_length : Z;
}.

(** ** Free store *)

Record Memory (U : Type) : Type := {
  blocks : list (option (list U));   (* [None]: released *)
  requests : list Z;                 (* element counts asked of [new[]] *)
}.
Arguments blocks {U} m.
Arguments requests {U} m.

Definition empty_memory {U} : Memory U := {| blocks := []; requests := [] |}.

(** Computations on the free store: a state monad over [result]. *)
Definition M (U A : Type) : Type := Memory U → result A * Memory U.

#[global] Instance M_ret {U} : MRet (M U) := fun A a m => (Ok a, m).

#[global] Instance M_bind {U} : MBind (M U) := fun A B k c m =>
  match c m with
  | (Ok a, m') => k a m'
  | (Err e, m') => (Err e, m')
  end.

Definition fail {U A} (e : error) : M U A := fun m => (Err e, m).
Definition lift {U A} (r : result A) : M U A := fun m => (r, m).

(** ** namespace detail *)

Module detail.
Section tags.
Context {Tag : Type} `{EqDecision Tag}.

Definition is_same_v (T U : Tag) : bool := bool_decide (T = U).

(** [(std::is_same_v<T, Ts> || ...)]; the empty fold is [false]. *)
Definition contains_v (T : Tag) (Ts : list Tag) : bool :=
  foldr (fun U acc => is_same_v T U || acc) false Ts.

(** The primary template is declared and never defined, so the empty pack
    has no [value]. *)
Fixpoint index_of (T : Tag) (Ts : list Tag) : result nat :=
  match Ts with
  | [] => Err ill_formed
  | U :: Ts' =>
      if is_same_v T U then Ok 0%nat
      else i ← index_of T Ts'; Ok (1 + i)%nat
  end.

Fixpoint unique_types_v (Ts : list Tag) : bool :=
  match Ts with
  | [] => true
  | T :: Rest =>
      foldr (fun R acc => negb (is_same_v T R) && acc) true Rest
      && unique_types_v Rest
  end.

Definition UniqueTags (Ts : list Tag) : bool := unique_types_v Ts.

Record SegmentSize : Type := { tag : Tag; n : Z }.
End tags.
Arguments SegmentSize Tag : clear implicits.

Definition BufferElement (U : Type) `{Element U} : bool :=
  is_trivially_copyable_v && is_trivially_destructible_v.
End detail.
Import detail.

Definition Segment {Tag : Type} (T : Tag) (count : Z) : SegmentSize Tag :=
  {| tag := T; n := count |}.

(** ** class Buffer *)

Record Buffer : Type := {
  ends_ : list Z;        (* [std::array<std::size_t, N>]: boundaries *)
  data_ : option nat;    (* [std::unique_ptr<Underlier[]>]; [None] is null *)
}.

(** [std::span<Underlier>]: a pointer and a length.  The pointer is kept as
    the two operands of [data_.get() + start]: the block [v_data] and the
    [std::size_t] [v_off]; no pointer is formed here, and whether the pair
    designates an element is decided only at an access ([span_cell]), which
    is defined when [v_off + k] is inside the live block.  [v_const] tells
    the two [get] overloads apart. *)
Record View : Type := {
  v_data : option nat;
  v_off : Z;
  v_size : Z;
  v_const : bool;
}.

(** [a[i]] on [std::array]: defined inside the array only. *)
Definition array_at (a : list Z) (i : nat) : result Z :=
  match a !! i with
  | Some x => Ok x
  | None => Err undefined
  end.

Section Buffer.
Context `{Platform}.
Context {Tag : Type} `{EqDecision Tag}.
Context {U : Type} `{Element U}.

(** [std::make_unique<Underlier[]>(count)], that is [new Underlier[count]()].
    [alloc_ok count] tells whether the new-expression obtains storage; it
    then has made one request to the allocation function, whatever [count]
    is, and yields a fresh block of [count] value-initialised elements.
    When it does not: a length above [max_length] is refused by the
    new-expression itself, which throws without calling the allocation
    function; any other length was asked of the allocation function, which
    threw. *)
Definition make_unique (count : Z) : M U nat :=
  fun m =>
    let log := requests m ++ [count] in
    if alloc_ok count then
      (Ok (length (blocks m)),
       {| blocks := blocks m ++ [Some (replicate (Z.to_nat count) value_init)];
          requests := log |})
    else if count <=? max_length then
      (Err bad_alloc, {| blocks := blocks m; requests := log |})
    else (Err bad_array_new_length, m).

(** [delete[]] through the owning pointer. *)
Definition release (p : nat) : M U unit :=
  fun m =>
    match blocks m !! p with
    | Some (Some _) =>
        (Ok tt, {| blocks := <[p := None]> (blocks m); requests := requests m |})
    | _ => (Err undefined, m)
    end.

Variable Tags : list Tag.

Definition N : nat := length Tags.

(** The lambda [add] of the constructor, on the captured [cur], [i] and
    [ends_].  The write [ends_[i++] = cur] is defined inside the array
    only. *)
Definition add (count : Z) (st : Z * nat * list Z)
  : result (Z * nat * list Z) :=
  let '(cur, i, ends) := st in
  let cur := wrap (cur + count) in
  if decide (i < length ends)%nat then Ok (cur, S i, <[i := cur]> ends)
  else Err undefined.

(** [(add(specs.n), ...)] from [cur = 0], [i = 0] and the zeroed array, one
    call after the other. *)
Definition fill (specs : list (SegmentSize Tag))
  : result (Z * nat * list Z) :=
  foldl (fun st s => st ≫= add (n s)) (Ok (0, 0%nat, replicate N 0)) specs.

Definition Buffer_ctor (specs : list (SegmentSize Tag)) : M U Buffer :=
  if negb (BufferElement U && UniqueTags Tags) then fail ill_formed
  else if negb (bool_decide (tag <$> specs = Tags)) then fail ill_formed
  else
    '(_, _, ends) ← lift (fill specs);
    count ← lift (if (N =? 0)%nat then Ok 0 else array_at ends (N - 1));
    p ← make_unique count;
    mret {| ends_ := ends; data_ := Some p |}.

(** [Buffer(const Buffer &) = delete] and the deleted copy assignment. *)
Definition Buffer_copy (src : Buffer) : result Buffer := Err ill_formed.
Definition Buffer_copy_assign (dst src : Buffer) : result Buffer :=
  Err ill_formed.

(** The defaulted move constructor: member-wise; moving a [std::array] of
    integers copies it, moving a [std::unique_ptr] nulls the source.
    Returns the destination and the source as left behind. *)
Definition Buffer_move (src : Buffer) : Buffer * Buffer :=
  ({| ends_ := ends_ src; data_ := data_ src |},
   {| ends_ := ends_ src; data_ := None |}).

(** The defaulted move assignment between two distinct objects:
    member-wise.  The table is copied; [unique_ptr::operator=] is
    [reset(src.release())]: the source's pointer is taken and nulled, stored
    in the destination, and the pointer the destination held before is
    deleted.  Returns the destination and the source as left behind. *)
Definition Buffer_move_assign (dst src : Buffer) : M U (Buffer * Buffer) :=
  let '(dst', src') := Buffer_move src in
  let old := data_ dst in
  _ ← match old with
      | Some p => release p
      | None => mret tt
      end;
  mret (dst', src').

(** The same statement with one object on both sides, [b = std::move(b)]:
    [release()] nulls the object's own pointer, so the pointer [reset] then
    finds as the old one is null and nothing is deleted; the object ends with
    the table and the pointer it had. *)
Definition Buffer_move_assign_self (b : Buffer) : M U Buffer :=
  let ends := ends_ b in
  let p := data_ b in
  let old : option nat := None in
  _ ← match old with
      | Some q => release q
      | None => mret tt
      end;
  mret {| ends_ := ends; data_ := p |}.

(** The implicit destructor. *)
Definition Buffer_dtor (b : Buffer) : M U unit :=
  match data_ b with
  | Some p => release p
  | None => mret tt
  end.

Definition get_impl (const : bool) (T : Tag) (b : Buffer) : result View :=
  if negb (contains_v T Tags) then Err ill_formed
  else
    i ← index_of T Tags;
    end_ ← array_at (ends_ b) i;
    start ← (if (i =? 0)%nat then Ok 0 else array_at (ends_ b) (i - 1));
    Ok {| v_data := data_ b; v_off := start;
          v_size := wrap (end_ - start); v_const := const |}.

Definition get : Tag → Buffer → result View := get_impl false.
Definition get_const : Tag → Buffer → result View := get_impl true.

Definition total_size (b : Buffer) : result Z :=
  if (N =? 0)%nat then Ok 0 else array_at (ends_ b) (N - 1).

(** Element access through a view ([std::span::operator[]]): defined for
    [k < size()] on a pointer into a live block that holds the element. *)
Definition span_cell (v : View) (k : Z) (m : Memory U)
  : result (nat * nat * list U) :=
  if negb ((0 <=? k) && (k <? v_size v)) then Err undefined
  else
    match v_data v with
    | None => Err undefined
    | Some p =>
        match blocks m !! p with
        | Some (Some blk) =>
            if (0 <=? v_off v) && (v_off v + k <? Z.of_nat (length blk))
            then Ok (p, Z.to_nat (v_off v + k), blk)
            else Err undefined
        | _ => Err undefined
        end
    end.

Definition span_load (v : View) (k : Z) (m : Memory U) : result U :=
  '(_, a, blk) ← span_cell v k m;
  match blk !! a with
  | Some x => Ok x
  | None => Err undefined
  end.

Definition span_store (v : View) (k : Z) (x : U) : M U unit :=
  fun m =>
    if v_const v then (Err ill_formed, m)
    else
      match span_cell v k m with
      | Ok (p, a, blk) =>
          (Ok tt, {| blocks := <[p := Some (<[a := x]> blk)]> (blocks m);
                     requests := requests m |})
      | Err e => (Err e, m)
      end.
End Buffer.

(** [MakeSegmentedBuffer]: the tag pack is read off the specifications. *)
Definition MakeSegmentedBuffer `{Platform} {Tag : Type} `{EqDecision Tag}
    {U : Type} `{Element U} (specs : list (SegmentSize Tag)) : M U Buffer :=
  Buffer_ctor (tag <$> specs) specs.


(** ** A concrete configuration

    Three tag types, a 64-bit [std::size_t], an allocator that satisfies
    requests of up to [2^32] elements, and integer elements. *)

Inductive example_tag : Set := Foo | Bar | Baz.

#[global] Instance example_tag_eq_dec : EqDecision example_tag.
Proof. solve_decision. Defined.

Definition lp64 : Platform :=
  {| size_bits := 64; alloc_ok := fun count => count <=? 2 ^ 32 |}.

Definition int_element : Element Z :=
  {| value_init := 0;
     is_trivially_copyable_v := true;
     is_trivially_destructible_v := true;
     max_length := 2 ^ 60 - 1 |}.

(** The test's configuration: ten elements for [Foo], twenty for [Bar]. *)
Definition basic_specs : list (SegmentSize example_tag) :=
  [Segment Foo 10; Segment Bar 20].

(** Lengths whose sum is [2^64 + 1]. *)
Definition wrapping_specs : list (SegmentSize example_tag) :=
  [Segment Foo (2 ^ 64 - 1); Segment Bar 2].

(** Lengths whose running total passes [2^64] in the middle. *)
Definition overlapping_specs : list (SegmentSize example_tag) :=
  [Segment Foo 5; Segment Bar (2 ^ 64 - 3); Segment Baz 4].

(** The buffers these three configurations construct. *)
Definition basic_buffer : Buffer :=
  {| ends_ := [10; 30]; data_ := Some 0%nat |}.

Definition wrapping_buffer : Buffer :=
  {| ends_ := [2 ^ 64 - 1; 1]; data_ := Some 0%nat |}.

Definition overlapping_buffer : Buffer :=
  {| ends_ := [5; 2; 6]; data_ := Some 0%nat |}.

(** The free store right after each construction. *)
Definition basic_memory : Memory Z :=
  {| blocks := [Some (replicate 30 0)]; requests := [30] |}.

Definition overlapping_memory : Memory Z :=
  {| blocks := [Some (replicate 6 0)]; requests := [6] |}.

(** Construction on the concrete configuration, from an empty free store. *)
Definition construct (Tags : list example_tag)
    (specs : list (SegmentSize example_tag)) : result Buffer * Memory Z :=
  @Buffer_ctor lp64 example_tag _ Z int_element Tags specs empty_memory.

(** ** The layout as the specification words it

    The sum of the requested lengths and the running totals recorded after
    each specification, both as mathematical integers. *)

Definition total (ls : list Z) : Z := foldr Z.add 0 ls.

Fixpoint prefix_sums (cur : Z) (ls : list Z) : list Z :=
  match ls with
  | [] => []
  | l :: ls => (cur + l) :: prefix_sums (cur + l) ls
  end.

(** The half-open range of element offsets a view spans. *)
Definition in_view (v : View) (a : Z) : Prop := v_off v ≤ a < v_off v + v_size v.

(** The buffer's pointer designates a live block of [count] elements. *)
Definition owns {U} (m : Memory U) (b : Buffer) (count : Z) : Prop :=
  ∃ p blk, data_ b = Some p ∧ blocks m !! p = Some (Some blk)
           ∧ Z.of_nat (length blk) = count.

(** * Properties *)

(** ** Tag packs *)

Section tag_facts.
Context {Tag : Type} `{EqDecision Tag}.
Implicit Types (T R : Tag) (Ts : list Tag).

Lemma is_same_v_true T R : is_same_v T R = true ↔ T = R.
Proof. apply bool_decide_eq_true. Qed.

Lemma is_same_v_false T R : is_same_v T R = false ↔ T ≠ R.
Proof. apply bool_decide_eq_false. Qed.

Lemma contains_v_elem T Ts : contains_v T Ts = true ↔ T ∈ Ts.
Proof.
  induction Ts as [|R Ts IH]; simpl.
  - split; [discriminate | intros HT; inversion HT].
  - rewrite orb_true_iff, is_same_v_true, IH, elem_of_cons. tauto.
Qed.

Lemma contains_v_not_elem T Ts : contains_v T Ts = false ↔ T ∉ Ts.
Proof.
  rewrite <- contains_v_elem. destruct (contains_v T Ts); split; congruence.
Qed.

Lemma index_of_lookup T Ts i : index_of T Ts = Ok i → Ts !! i = Some T.
Proof.
  revert i. induction Ts as [|R Ts IH]; simpl; intros i Hi; [discriminate|].
  destruct (is_same_v T R) eqn:E.
  - apply is_same_v_true in E. by simplify_eq.
  - destruct (index_of T Ts) as [j|e]; simpl in Hi; [|discriminate].
    simplify_eq. simpl. by apply IH.
Qed.

Lemma index_of_lt T Ts i : index_of T Ts = Ok i → (i < length Ts)%nat.
Proof. intros Hi. eapply lookup_lt_Some, index_of_lookup, Hi. Qed.

Lemma index_of_elem T Ts : T ∈ Ts → ∃ i, index_of T Ts = Ok i.
Proof.
  induction Ts as [|R Ts IH]; intros HT; [inversion HT|]. simpl.
  destruct (is_same_v T R) eqn:E; [by exists 0%nat|].
  apply is_same_v_false in E. apply elem_of_cons in HT as [?|HT]; [done|].
  destruct (IH HT) as [i ->]. by exists (S i).
Qed.

Lemma index_of_not_elem T Ts : T ∉ Ts → index_of T Ts = Err ill_formed.
Proof.
  induction Ts as [|R Ts IH]; intros HT; [done|]. simpl.
  apply not_elem_of_cons in HT as [HTR HT].
  apply is_same_v_false in HTR. rewrite HTR, (IH HT). done.
Qed.

(** In a pack without repetition a tag's index is its position. *)
Lemma index_of_NoDup T Ts i :
  NoDup Ts → Ts !! i = Some T → index_of T Ts = Ok i.
Proof.
  intros Hnd Hi.
  destruct (index_of_elem T Ts) as [j Hj].
  { eapply list_elem_of_lookup_2, Hi. }
  rewrite Hj. f_equal.
  eapply NoDup_lookup; eauto using index_of_lookup.
Qed.

(** Distinct tags never resolve to the same boundary. *)
Lemma index_of_inj T R Ts i :
  index_of T Ts = Ok i → index_of R Ts = Ok i → T = R.
Proof.
  intros HT HR. apply index_of_lookup in HT, HR. congruence.
Qed.

Lemma all_differ_not_elem T Ts :
  foldr (fun R acc => negb (is_same_v T R) && acc) true Ts = true ↔ T ∉ Ts.
Proof.
  induction Ts as [|R Ts IH]; simpl.
  - split; [intros _ HT; inversion HT | done].
  - rewrite andb_true_iff, negb_true_iff, is_same_v_false, IH,
      not_elem_of_cons. tauto.
Qed.

Lemma unique_types_v_NoDup Ts : unique_types_v Ts = true ↔ NoDup Ts.
Proof.
  induction Ts as [|T Ts IH]; simpl.
  - split; [intros _; constructor | done].
  - rewrite andb_true_iff, all_differ_not_elem, IH, list.NoDup_cons. tauto.
Qed.

Lemma unique_types_v_dup Ts : unique_types_v Ts = false ↔ ¬ NoDup Ts.
Proof.
  rewrite <- unique_types_v_NoDup.
  destruct (unique_types_v Ts); split; congruence.
Qed.
End tag_facts.

(** ** Arithmetic on [std::size_t] and running totals *)

Section size_t_facts.
Context `{Platform}.

Lemma size_mod_pos : 0 < size_mod.
Proof. unfold size_mod. apply Z.pow_pos_nonneg; lia. Qed.

Lemma wrap_range z : 0 ≤ wrap z < size_mod.
Proof. apply Z.mod_pos_bound, size_mod_pos. Qed.

Lemma wrap_small z : 0 ≤ z < size_mod → wrap z = z.
Proof. apply Z.mod_small. Qed.

Lemma wrap_add_l a b : wrap (wrap a + b) = wrap (a + b).
Proof. apply Zplus_mod_idemp_l. Qed.

(** The length of a view survives a wrapped boundary: [end - start] is taken
    modulo [2^w] as well. *)
Lemma wrap_step_back cur l : 0 ≤ l < size_mod → wrap (wrap (cur + l) - cur) = l.
Proof.
  intros Hl. unfold wrap.
  rewrite Zminus_mod_idemp_l.
  replace (cur + l - cur) with l by lia. by apply Z.mod_small.
Qed.

Lemma wrap_step_back_wrapped cur l :
  0 ≤ l < size_mod → wrap (wrap (wrap cur + l) - wrap cur) = l.
Proof. apply wrap_step_back. Qed.
End size_t_facts.

Lemma total_app ls1 ls2 : total (ls1 ++ ls2) = total ls1 + total ls2.
Proof. induction ls1 as [|l ls1 IH]; simpl; lia. Qed.

Lemma total_nonneg ls : Forall (fun l => 0 ≤ l) ls → 0 ≤ total ls.
Proof. induction 1; simpl; lia. Qed.

Lemma total_take_le ls i :
  Forall (fun l => 0 ≤ l) ls → total (take i ls) ≤ total ls.
Proof.
  intros Hls. rewrite <- (take_drop i ls) at 2. rewrite total_app.
  pose proof (total_nonneg (drop i ls) (Forall_drop _ _ _ Hls)). lia.
Qed.

Lemma total_take_S ls i l :
  ls !! i = Some l → total (take (S i) ls) = total (take i ls) + l.
Proof.
  intros Hi. rewrite (take_S_r _ _ _ Hi), total_app. simpl. lia.
Qed.

Lemma total_take_mono ls i j :
  Forall (fun l => 0 ≤ l) ls → (i ≤ j)%nat → total (take i ls) ≤ total (take j ls).
Proof.
  intros Hls Hij.
  replace (take i ls) with (take i (take j ls)) by (rewrite take_take; f_equal; lia).
  apply total_take_le. by apply Forall_take.
Qed.

Lemma length_prefix_sums cur ls : length (prefix_sums cur ls) = length ls.
Proof. revert cur. induction ls as [|l ls IH]; intros cur; simpl; [done|]. by rewrite IH. Qed.

Lemma prefix_sums_lookup cur ls i :
  (i < length ls)%nat →
  prefix_sums cur ls !! i = Some (cur + total (take (S i) ls)).
Proof.
  revert cur i. induction ls as [|l ls IH]; intros cur i Hi; simpl in *; [lia|].
  destruct i as [|i]; simpl.
  - f_equal. lia.
  - rewrite IH by lia. f_equal. lia.
Qed.

Lemma prefix_sums_last cur ls :
  ls ≠ [] → prefix_sums cur ls !! (length ls - 1)%nat = Some (cur + total ls).
Proof.
  intros Hne. destruct ls as [|l ls]; [done|].
  rewrite prefix_sums_lookup by (simpl; lia).
  rewrite take_ge; [done|]. simpl. lia.
Qed.

Section running_totals.
Context `{Platform}.

Lemma prefix_sums_wrap_start cur ls :
  wrap <$> prefix_sums (wrap cur) ls = wrap <$> prefix_sums cur ls.
Proof.
  revert cur. induction ls as [|l ls IH]; intros cur; simpl; [done|].
  rewrite wrap_add_l. f_equal.
  rewrite <- IH, wrap_add_l, IH. done.
Qed.
End running_totals.

(** ** The constructor's loop *)

Section layout_facts.
Context `{Platform}.
Context {Tag : Type} `{EqDecision Tag}.
Context {U : Type} `{Element U}.
Variable Tags : list Tag.
Implicit Types (specs : list (SegmentSize Tag)) (b : Buffer) (m : Memory U).

(** Running [add] over the specifications from slot [i] stays inside the
    array and overwrites exactly the slots [i .. i + |specs|) with the
    wrapped running totals. *)
Lemma add_fold specs cur i (ends : list Z) :
  (i + length specs ≤ length ends)%nat →
  ∃ c, foldl (fun st s => st ≫= add (n s)) (Ok (cur, i, ends)) specs
       = Ok (c, (i + length specs)%nat,
             take i ends ++ (wrap <$> prefix_sums cur (n <$> specs))
               ++ drop (i + length specs) ends).
Proof.
  revert cur i ends.
  induction specs as [|s specs IH]; intros cur i ends Hlen; simpl in *.
  - exists cur. rewrite Nat.add_0_r, take_drop. done.
  - assert (S i + length specs ≤ length ends)%nat as Hlen' by (clear IH; lia).
    rewrite decide_True by lia.
    destruct (IH (wrap (cur + n s)) (S i) (<[i := wrap (cur + n s)]> ends))
      as [c Hc]; [by rewrite length_insert|].
    clear IH. exists c. rewrite Hc. do 2 f_equal; [f_equal; lia|].
    rewrite (take_S_r _ i (wrap (cur + n s)))
      by (apply list_lookup_insert_eq; lia).
    rewrite take_insert_ge by lia.
    rewrite drop_insert_lt by lia.
    rewrite prefix_sums_wrap_start, <- app_assoc. simpl.
    do 4 f_equal. lia.
Qed.

Lemma fill_ends specs :
  tag <$> specs = Tags →
  ∃ c, fill Tags specs = Ok (c, N Tags, wrap <$> prefix_sums 0 (n <$> specs)).
Proof.
  intros Htags.
  assert (length specs = N Tags) as Hlen.
  { unfold N. rewrite <- Htags, length_fmap. done. }
  destruct (add_fold specs 0 0%nat (replicate (N Tags) 0)) as [c Hc].
  { rewrite length_replicate. lia. }
  exists c. unfold fill. rewrite Hc. simpl. rewrite Hlen. do 2 f_equal.
  rewrite drop_ge by (rewrite length_replicate; lia).
  by rewrite app_nil_r.
Qed.

(** What the constructor reads back as the element count. *)
Lemma last_boundary specs :
  length specs = N Tags →
  (if (N Tags =? 0)%nat then Ok 0
   else array_at (wrap <$> prefix_sums 0 (n <$> specs)) (N Tags - 1))
  = Ok (wrap (total (n <$> specs))).
Proof.
  intros Hlen. destruct (N Tags =? 0)%nat eqn:E.
  - apply Nat.eqb_eq in E. rewrite E in Hlen.
    apply nil_length_inv in Hlen as ->. done.
  - apply Nat.eqb_neq in E. unfold array_at.
    rewrite list_lookup_fmap, <- Hlen, <- (length_fmap n specs).
    rewrite prefix_sums_last; [done|].
    intros Hnil. apply (f_equal length) in Hnil.
    rewrite length_fmap in Hnil. simpl in Hnil. lia.
Qed.

(** On a well-formed configuration the constructor is one allocation of
    the wrapped sum of the lengths, and the boundary table is the wrapped
    running totals. *)
Lemma Buffer_ctor_unfold specs m :
  BufferElement U = true → UniqueTags Tags = true → tag <$> specs = Tags →
  Buffer_ctor Tags specs m =
    (p ← make_unique (wrap (total (n <$> specs)));
     mret {| ends_ := wrap <$> prefix_sums 0 (n <$> specs);
             data_ := Some p |}) m.
Proof.
  intros HU Huniq Htags. unfold Buffer_ctor.
  rewrite HU, Huniq. simpl.
  rewrite bool_decide_eq_true_2 by done. simpl.
  destruct (fill_ends specs Htags) as [c ->].
  unfold mbind, M_bind, lift. cbn beta iota.
  rewrite last_boundary; [done|].
  unfold N. by rewrite <- Htags, length_fmap.
Qed.

Lemma Buffer_ctor_reject specs m :
  BufferElement U = false ∨ UniqueTags Tags = false ∨ tag <$> specs ≠ Tags →
  Buffer_ctor Tags specs m = (Err ill_formed, m).
Proof.
  intros Hbad. unfold Buffer_ctor.
  destruct (BufferElement U && UniqueTags Tags) eqn:E; [|done]. simpl.
  apply andb_true_iff in E as [HU Huniq].
  destruct Hbad as [?|[?|Hne]]; [congruence..|].
  by rewrite bool_decide_eq_false_2.
Qed.

(** Everything a successful construction tells us. *)
Lemma Buffer_ctor_Ok specs m b m' :
  Buffer_ctor Tags specs m = (Ok b, m') →
  BufferElement U = true ∧ NoDup Tags ∧ tag <$> specs = Tags ∧
  alloc_ok (wrap (total (n <$> specs))) = true ∧
  b = {| ends_ := wrap <$> prefix_sums 0 (n <$> specs);
         data_ := Some (length (blocks m)) |} ∧
  m' = {| blocks := blocks m ++
            [Some (replicate (Z.to_nat (wrap (total (n <$> specs)))) value_init)];
          requests := requests m ++ [wrap (total (n <$> specs))] |}.
Proof.
  intros Hctor.
  destruct (BufferElement U) eqn:HU; cycle 1.
  { rewrite Buffer_ctor_reject in Hctor by auto. discriminate. }
  destruct (UniqueTags Tags) eqn:Huniq; cycle 1.
  { rewrite Buffer_ctor_reject in Hctor by auto. discriminate. }
  destruct (decide (tag <$> specs = Tags)) as [Htags|Hne]; cycle 1.
  { rewrite Buffer_ctor_reject in Hctor by auto. discriminate. }
  rewrite Buffer_ctor_unfold in Hctor by done.
  unfold mbind, M_bind, make_unique, mret, M_ret in Hctor.
  destruct (alloc_ok (wrap (total (n <$> specs)))) eqn:Halloc;
    [|by destruct (_ <=? _)].
  apply unique_types_v_NoDup in Huniq.
  by simplify_eq.
Qed.
End layout_facts.

(** ** Views *)

Section view_facts.
Context `{Platform}.
Context {Tag : Type} `{EqDecision Tag}.
Context {U : Type} `{Element U}.
Variable Tags : list Tag.
Implicit Types (b : Buffer) (m : Memory U) (v : View) (T : Tag).

Lemma get_impl_undeclared c T b : T ∉ Tags → get_impl Tags c T b = Err ill_formed.
Proof.
  intros HT. unfold get_impl.
  apply contains_v_not_elem in HT. by rewrite HT.
Qed.

(** [get] on the boundaries it reads. *)
Lemma get_impl_at c T b i end_ start :
  index_of T Tags = Ok i →
  array_at (ends_ b) i = Ok end_ →
  (if (i =? 0)%nat then Ok 0 else array_at (ends_ b) (i - 1)) = Ok start →
  get_impl Tags c T b =
    Ok {| v_data := data_ b; v_off := start;
          v_size := wrap (end_ - start); v_const := c |}.
Proof.
  intros Hi Hend Hstart. unfold get_impl.
  assert (contains_v T Tags = true) as ->.
  { apply contains_v_elem. eapply list_elem_of_lookup_2, index_of_lookup, Hi. }
  simpl. rewrite Hi. simpl. rewrite Hend. simpl. rewrite Hstart. done.
Qed.

(** The boundaries of a table of wrapped running totals. *)
Lemma boundary_end ls i l :
  ls !! i = Some l →
  array_at (wrap <$> prefix_sums 0 ls) i
  = Ok (wrap (wrap (total (take i ls)) + l)).
Proof.
  intros Hi. unfold array_at.
  rewrite list_lookup_fmap, prefix_sums_lookup by (eapply lookup_lt_Some, Hi).
  simpl. rewrite (total_take_S _ _ _ Hi), wrap_add_l. done.
Qed.

Lemma boundary_start ls i :
  (i < length ls)%nat →
  (if (i =? 0)%nat then Ok 0 else array_at (wrap <$> prefix_sums 0 ls) (i - 1))
  = Ok (wrap (total (take i ls))).
Proof.
  intros Hi. destruct i as [|i]; simpl; [done|].
  unfold array_at.
  rewrite Nat.sub_0_r, list_lookup_fmap, prefix_sums_lookup by lia.
  done.
Qed.

(** On a constructed layout the view of the [i]-th tag starts at the wrapped
    sum of the lengths before it and has exactly the requested length. *)
Lemma get_impl_layout c T b ls i l :
  ends_ b = wrap <$> prefix_sums 0 ls →
  index_of T Tags = Ok i →
  ls !! i = Some l →
  is_size_t l →
  get_impl Tags c T b =
    Ok {| v_data := data_ b; v_off := wrap (total (take i ls));
          v_size := l; v_const := c |}.
Proof.
  intros Hends Hi Hl Hrange.
  rewrite (get_impl_at c T b i (wrap (wrap (total (take i ls)) + l))
             (wrap (total (take i ls)))); try done.
  - by rewrite wrap_step_back_wrapped.
  - rewrite Hends. by apply boundary_end.
  - rewrite Hends. apply boundary_start. eapply lookup_lt_Some, Hl.
Qed.
End view_facts.

(** ** Element access *)

Section access_facts.
Context `{Platform}.
Context {U : Type} `{Element U}.
Implicit Types (b : Buffer) (m : Memory U) (v : View) (x : U).

Lemma span_cell_Ok v k m p a blk :
  span_cell v k m = Ok (p, a, blk) ↔
  (0 ≤ k < v_size v) ∧ v_data v = Some p ∧ blocks m !! p = Some (Some blk) ∧
  0 ≤ v_off v ∧ v_off v + k < Z.of_nat (length blk) ∧
  a = Z.to_nat (v_off v + k).
Proof.
  split.
  - unfold span_cell. intros Hcell.
    destruct (negb ((0 <=? k) && (k <? v_size v))) eqn:Hk; [discriminate|].
    apply negb_false_iff, andb_true_iff in Hk as [Hk0 Hk1].
    apply Z.leb_le in Hk0. apply Z.ltb_lt in Hk1.
    destruct (v_data v) as [q|]; [|discriminate].
    destruct (blocks m !! q) as [[blk'|]|] eqn:Hblk; try discriminate.
    destruct ((0 <=? v_off v) && (v_off v + k <? Z.of_nat (length blk')))
      eqn:Hin; [|discriminate].
    apply andb_true_iff in Hin as [Hin0 Hin1].
    apply Z.leb_le in Hin0. apply Z.ltb_lt in Hin1.
    simplify_eq. split_and!; (done || lia).
  - intros (Hk & Hp & Hblk & Hoff & Hin & ->). unfold span_cell.
    assert ((0 <=? k) && (k <? v_size v) = true) as ->.
    { apply andb_true_iff. split; [apply Z.leb_le | apply Z.ltb_lt]; lia. }
    simpl. rewrite Hp, Hblk.
    assert ((0 <=? v_off v) && (v_off v + k <? Z.of_nat (length blk)) = true)
      as ->; [|done].
    apply andb_true_iff. split; [apply Z.leb_le | apply Z.ltb_lt]; lia.
Qed.

Lemma span_store_Ok v k x m m' :
  span_store v k x m = (Ok tt, m') ↔
  v_const v = false ∧
  ∃ p a blk, span_cell v k m = Ok (p, a, blk) ∧
    m' = {| blocks := <[p := Some (<[a := x]> blk)]> (blocks m);
            requests := requests m |}.
Proof.
  unfold span_store. destruct (v_const v).
  { split; [discriminate | intros [? _]; discriminate]. }
  destruct (span_cell v k m) as [[[p a] blk]|e].
  - split.
    + intros ?. simplify_eq. split; [done|]. by exists p, a, blk.
    + intros (_ & p' & a' & blk' & ? & ->). by simplify_eq.
  - split; [discriminate | intros (_ & ? & ? & ? & ? & _); discriminate].
Qed.

(** What was stored is what is loaded back through the same view. *)
Lemma span_load_store v k x m m' :
  span_store v k x m = (Ok tt, m') → span_load v k m' = Ok x.
Proof.
  intros (_ & p & a & blk & Hcell & ->)%span_store_Ok.
  apply span_cell_Ok in Hcell as (Hk & Hp & Hblk & Hoff & Hin & ->).
  unfold span_load.
  assert (span_cell v k
            {| blocks := <[p := Some (<[Z.to_nat (v_off v + k) := x]> blk)]> (blocks m);
               requests := requests m |}
          = Ok (p, Z.to_nat (v_off v + k), <[Z.to_nat (v_off v + k) := x]> blk))
    as ->.
  { apply span_cell_Ok. simpl. rewrite length_insert.
    rewrite list_lookup_insert_eq by (eapply lookup_lt_Some, Hblk). done. }
  simpl. rewrite list_lookup_insert_eq by lia. done.
Qed.

(** A store leaves every other cell as it was. *)
Lemma span_load_frame v k x m m' v' k' :
  span_store v k x m = (Ok tt, m') →
  v_data v' ≠ v_data v ∨ v_off v' + k' ≠ v_off v + k →
  span_load v' k' m' = span_load v' k' m.
Proof.
  intros (_ & p & a & blk & Hcell & ->)%span_store_Ok Hother.
  apply span_cell_Ok in Hcell as (Hk & Hp & Hblk & Hoff & Hin & ->).
  unfold span_load, span_cell. simpl.
  destruct (negb ((0 <=? k') && (k' <? v_size v'))) eqn:Hguard; [done|].
  apply negb_false_iff, andb_true_iff in Hguard as [Hk0 _].
  apply Z.leb_le in Hk0.
  destruct (v_data v') as [q|]; [|done].
  destruct (decide (q = p)) as [->|Hq].
  - rewrite list_lookup_insert_eq by (eapply lookup_lt_Some, Hblk).
    rewrite Hblk, length_insert.
    destruct (Z.leb_spec 0 (v_off v')); [|done].
    destruct (v_off v' + k' <? Z.of_nat (length blk)); [|done]. simpl.
    rewrite list_lookup_insert_ne; [done|].
    destruct Hother as [Hne|Hne]; [congruence|lia].
  - by rewrite list_lookup_insert_ne.
Qed.

Lemma span_store_defined v k x m p blk :
  v_const v = false → v_data v = Some p → blocks m !! p = Some (Some blk) →
  0 ≤ k < v_size v → 0 ≤ v_off v → v_off v + k < Z.of_nat (length blk) →
  ∃ m', span_store v k x m = (Ok tt, m').
Proof.
  intros Hc Hp Hblk Hk Hoff Hin. eexists.
  apply span_store_Ok. split; [done|].
  exists p, (Z.to_nat (v_off v + k)), blk. split; [|done].
  by apply span_cell_Ok.
Qed.

(** Stores never move, resize or release a block. *)
Lemma span_store_owns v k x m m' b count :
  span_store v k x m = (Ok tt, m') → owns m b count → owns m' b count.
Proof.
  intros (_ & p & a & blk & Hcell & ->)%span_store_Ok (q & blkq & Hq & Hblkq & Hlen).
  apply span_cell_Ok in Hcell as (_ & _ & Hblk & _).
  destruct (decide (q = p)) as [->|Hne].
  - exists p, (<[a := x]> blk). simpl.
    rewrite list_lookup_insert_eq by (eapply lookup_lt_Some, Hblk).
    rewrite length_insert. split_and!; [done..|]. congruence.
  - exists q, blkq. simpl. by rewrite list_lookup_insert_ne.
Qed.
End access_facts.

(** ** Boundary table and total size *)

(** Closed range facts about concrete lengths. *)
Ltac size_t_values := repeat constructor; vm_compute; congruence.

Lemma is_size_t_nonneg `{Platform} ls :
  Forall is_size_t ls → Forall (fun l => 0 ≤ l) ls.
Proof. apply Forall_impl. by intros ? [? _]. Qed.

Lemma prefix_sums_no_wrap `{Platform} cur ls :
  0 ≤ cur → Forall is_size_t ls → cur + total ls < size_mod →
  wrap <$> prefix_sums cur ls = prefix_sums cur ls.
Proof.
  intros Hcur Hls. revert cur Hcur.
  induction Hls as [|l ls [Hl0 Hl1] Hls IH]; intros cur Hcur Hsum; simpl in *;
    [done|].
  pose proof (total_nonneg ls (is_size_t_nonneg ls Hls)).
  rewrite wrap_small by lia. f_equal. apply IH; lia.
Qed.

Lemma total_size_ctor `{Platform} {Tag : Type} `{EqDecision Tag}
    {U : Type} `{Element U} (Tags : list Tag) specs (m : Memory U) b m' :
  Buffer_ctor Tags specs m = (Ok b, m') →
  total_size Tags b = Ok (wrap (total (n <$> specs))).
Proof.
  intros (_ & _ & Htags & _ & -> & _)%Buffer_ctor_Ok.
  unfold total_size. simpl. apply last_boundary.
  unfold N. by rewrite <- Htags, length_fmap.
Qed.

(** C1, as the code has it.  For every constructed buffer the boundary table
    holds, in declaration order, the prefix sums of the requested lengths
    reduced modulo [2^w], and [total_size()] is the last boundary ([0] for an
    empty pack), that is the sum of the lengths modulo [2^w].  When the
    lengths are [std::size_t] values whose sum stays below [2^w], the table is
    the exact prefix sums and [total_size()] is the exact sum. *)
Theorem total_size_prefix_sums `{Platform} {Tag : Type} `{EqDecision Tag}
    {U : Type} `{Element U} (Tags : list Tag) specs (m : Memory U) b m' :
  Buffer_ctor Tags specs m = (Ok b, m') →
  ends_ b = wrap <$> prefix_sums 0 (n <$> specs) ∧
  length (ends_ b) = N Tags ∧
  total_size Tags b = Ok (default 0 (list.last (ends_ b))) ∧
  total_size Tags b = Ok (wrap (total (n <$> specs))) ∧
  (Forall is_size_t (n <$> specs) → total (n <$> specs) < size_mod →
     ends_ b = prefix_sums 0 (n <$> specs) ∧
     total_size Tags b = Ok (total (n <$> specs))).
Proof.
  intros Hctor.
  pose proof (total_size_ctor _ _ _ _ _ Hctor) as Htotal.
  apply Buffer_ctor_Ok in Hctor as (_ & _ & Htags & _ & -> & _).
  assert (length (wrap <$> prefix_sums 0 (n <$> specs)) = N Tags) as Hlen.
  { rewrite length_fmap, length_prefix_sums, length_fmap.
    unfold N. by rewrite <- Htags, length_fmap. }
  split_and!; [done|done| |done|].
  - unfold total_size, array_at. cbn [ends_].
    rewrite last_lookup, Hlen.
    destruct (N Tags) as [|k] eqn:HN; simpl.
    + by apply nil_length_inv in Hlen as ->.
    + rewrite Nat.sub_0_r.
      by destruct (lookup_lt_is_Some_2 (wrap <$> prefix_sums 0 (n <$> specs)) k)
        as [e ->]; [lia|].
  - intros Hls Hsum. split.
    + cbn [ends_]. by rewrite prefix_sums_no_wrap by (done || lia).
    + rewrite Htotal, wrap_small; [done|].
      split; [|done]. by apply total_nonneg, is_size_t_nonneg.
Qed.

Lemma total_size_prefix_sums_witness :
  construct [Foo; Bar] basic_specs
    = (Ok {| ends_ := [10; 30]; data_ := Some 0%nat |},
       {| blocks := [Some (replicate 30 0)]; requests := [30] |}) ∧
  Forall (@is_size_t lp64) (n <$> basic_specs) ∧
  total (n <$> basic_specs) < @size_mod lp64 ∧
  ends_ {| ends_ := [10; 30]; data_ := Some 0%nat |}
    = prefix_sums 0 (n <$> basic_specs) ∧
  @total_size example_tag [Foo; Bar] {| ends_ := [10; 30]; data_ := Some 0%nat |}
    = Ok (total (n <$> basic_specs)).
Proof.
  assert (construct [Foo; Bar] basic_specs
    = (Ok {| ends_ := [10; 30]; data_ := Some 0%nat |},
       {| blocks := [Some (replicate 30 0)]; requests := [30] |})) as Hctor
    by reflexivity.
  assert (Forall (@is_size_t lp64) (n <$> basic_specs)) as Hls
    by size_t_values.
  assert (total (n <$> basic_specs) < @size_mod lp64) as Hsum
    by reflexivity.
  split_and!; [exact Hctor | exact Hls | exact Hsum | |];
    apply (total_size_prefix_sums _ _ _ _ _ Hctor); assumption.
Defined.

(** C1 fails as worded: two lengths that sum to [2^64 + 1] give a buffer
    whose [total_size()] is [1]. *)
Lemma total_size_not_sum :
  construct [Foo; Bar] wrapping_specs
    = (Ok {| ends_ := [2 ^ 64 - 1; 1]; data_ := Some 0%nat |},
       {| blocks := [Some [0]]; requests := [1] |}) ∧
  Forall (@is_size_t lp64) (n <$> wrapping_specs) ∧
  @total_size example_tag [Foo; Bar]
    {| ends_ := [2 ^ 64 - 1; 1]; data_ := Some 0%nat |} = Ok 1 ∧
  total (n <$> wrapping_specs) = 2 ^ 64 + 1 ∧
  prefix_sums 0 (n <$> wrapping_specs) = [2 ^ 64 - 1; 2 ^ 64 + 1].
Proof.
  split_and!; try reflexivity. size_t_values.
Qed.

(** C10.  The running total is [std::size_t] arithmetic and nothing checks
    it: on every well-formed configuration whose wrapped element count the
    allocator grants, construction succeeds; each boundary is the
    corresponding prefix sum modulo [2^w] and so is [total_size()]; once the
    lengths sum to [2^w] or more, [total_size()] is not their sum; and
    wherever a running total passes [2^w] the next boundary is smaller than
    the one before it. *)
Theorem boundaries_wrap `{Platform} {Tag : Type} `{EqDecision Tag}
    {U : Type} `{Element U} (Tags : list Tag) specs (m : Memory U) :
  BufferElement U = true → NoDup Tags → tag <$> specs = Tags →
  Forall is_size_t (n <$> specs) →
  alloc_ok (wrap (total (n <$> specs))) = true →
  ∃ b m', Buffer_ctor Tags specs m = (Ok b, m') ∧
    (∀ i, (i < N Tags)%nat →
       ends_ b !! i = Some (wrap (total (take (S i) (n <$> specs))))) ∧
    total_size Tags b = Ok (wrap (total (n <$> specs))) ∧
    (size_mod ≤ total (n <$> specs) →
       total_size Tags b ≠ Ok (total (n <$> specs))) ∧
    (∀ i e l, ends_ b !! i = Some e → (n <$> specs) !! S i = Some l →
       size_mod ≤ e + l → ∃ e', ends_ b !! S i = Some e' ∧ e' < e).
Proof.
  intros HU Huniq Htags Hls Halloc.
  apply unique_types_v_NoDup in Huniq.
  pose proof (Buffer_ctor_unfold Tags specs m HU Huniq Htags) as Hctor.
  unfold mbind, M_bind, make_unique, mret, M_ret in Hctor.
  rewrite Halloc in Hctor.
  eexists _, _. split; [exact Hctor|].
  assert (length (n <$> specs) = N Tags) as Hlen.
  { unfold N. by rewrite <- Htags, !length_fmap. }
  assert (∀ i, (i < N Tags)%nat →
    (wrap <$> prefix_sums 0 (n <$> specs)) !! i
    = Some (wrap (total (take (S i) (n <$> specs))))) as Hends.
  { intros i Hi. rewrite list_lookup_fmap, prefix_sums_lookup by lia. done. }
  split_and!.
  - exact Hends.
  - eapply total_size_ctor, Hctor.
  - intros Hsum. rewrite (total_size_ctor _ _ _ _ _ Hctor).
    intros [=Heq]. pose proof (wrap_range (total (n <$> specs))). lia.
  - cbn [ends_]. intros i e l He Hl Hpass.
    assert (S i < N Tags)%nat as Hi.
    { rewrite <- Hlen. eapply lookup_lt_Some, Hl. }
    rewrite Hends in He by lia. rewrite Hends by done.
    injection He as <-. eexists. split; [done|].
    rewrite (total_take_S _ _ _ Hl), <- wrap_add_l.
    rewrite Forall_lookup in Hls. destruct (Hls _ _ Hl) as [Hl0 Hl1].
    pose proof (wrap_range (total (take (S i) (n <$> specs)))) as He.
    set (e := wrap (total (take (S i) (n <$> specs)))) in *.
    unfold wrap at 1.
    replace (e + l) with (e + l - size_mod + 1 * size_mod) by lia.
    rewrite Z.mod_add by lia. rewrite Z.mod_small; lia.
Qed.

Lemma boundaries_wrap_witness :
  ∃ b m', construct [Foo; Bar] wrapping_specs = (Ok b, m') ∧
    (∀ i, (i < 2)%nat →
       ends_ b !! i
       = Some (@wrap lp64 (total (take (S i) (n <$> wrapping_specs))))) ∧
    @total_size example_tag [Foo; Bar] b
      = Ok (@wrap lp64 (total (n <$> wrapping_specs))) ∧
    @total_size example_tag [Foo; Bar] b ≠ Ok (total (n <$> wrapping_specs)) ∧
    ∃ e', ends_ b !! 1%nat = Some e' ∧ e' < 2 ^ 64 - 1.
Proof.
  destruct (@boundaries_wrap lp64 example_tag _ Z int_element [Foo; Bar]
              wrapping_specs empty_memory)
    as (b & m' & Hctor & Hends & Htotal & Hne & Hdec).
  - reflexivity.
  - apply unique_types_v_NoDup. reflexivity.
  - reflexivity.
  - size_t_values.
  - reflexivity.
  - exists b, m'. split_and!; [exact Hctor | exact Hends | exact Htotal | |].
    + apply Hne. vm_compute. congruence.
    + apply (Hdec 0%nat (2 ^ 64 - 1) 2).
      * rewrite Hends by (unfold N; simpl; lia). reflexivity.
      * reflexivity.
      * vm_compute. congruence.
Defined.

(** ** Segments of a constructed buffer *)

Section segment_facts.
Context `{Platform}.
Context {Tag : Type} `{EqDecision Tag}.
Context {U : Type} `{Element U}.
Variable Tags : list Tag.
Implicit Types (specs : list (SegmentSize Tag)) (b : Buffer) (m : Memory U).
Implicit Types (v : View) (T : Tag).

Lemma ctor_lengths specs m b m' :
  Buffer_ctor Tags specs m = (Ok b, m') → length (n <$> specs) = length Tags.
Proof.
  intros (_ & _ & Htags & _)%Buffer_ctor_Ok.
  by rewrite <- Htags, !length_fmap.
Qed.

(** The view of the tag declared at position [i]. *)
Lemma get_ctor specs m b m' c i T :
  Buffer_ctor Tags specs m = (Ok b, m') →
  Forall is_size_t (n <$> specs) →
  Tags !! i = Some T →
  ∃ l, (n <$> specs) !! i = Some l ∧
       get_impl Tags c T b =
         Ok {| v_data := data_ b;
               v_off := wrap (total (take i (n <$> specs)));
               v_size := l; v_const := c |}.
Proof.
  intros Hctor Hls HT.
  pose proof (ctor_lengths _ _ _ _ Hctor) as Hlen.
  apply Buffer_ctor_Ok in Hctor as (_ & Hnd & _ & _ & -> & _).
  destruct (lookup_lt_is_Some_2 (n <$> specs) i) as [l Hl].
  { rewrite Hlen. eapply lookup_lt_Some, HT. }
  exists l. split; [done|].
  eapply get_impl_layout; eauto using index_of_NoDup.
  rewrite Forall_lookup in Hls. eauto.
Qed.

(** Every view [get] hands out is the view of some declared position. *)
Lemma get_ctor_inv specs m b m' c T v :
  Buffer_ctor Tags specs m = (Ok b, m') →
  Forall is_size_t (n <$> specs) →
  get_impl Tags c T b = Ok v →
  ∃ i l, Tags !! i = Some T ∧ (n <$> specs) !! i = Some l ∧
         v = {| v_data := data_ b;
                v_off := wrap (total (take i (n <$> specs)));
                v_size := l; v_const := c |}.
Proof.
  intros Hctor Hls Hget.
  destruct (decide (T ∈ Tags)) as [HT|HT]; cycle 1.
  { rewrite get_impl_undeclared in Hget by done. discriminate. }
  apply list_elem_of_lookup_1 in HT as [i Hi].
  destruct (get_ctor _ _ _ _ c _ _ Hctor Hls Hi) as (l & Hl & Hv).
  exists i, l. split_and!; [done..|]. congruence.
Qed.

(** Without overflow no boundary wraps. *)
Lemma boundary_exact (ls : list Z) i :
  Forall is_size_t ls → total ls < size_mod →
  wrap (total (take i ls)) = total (take i ls).
Proof.
  intros Hls Hsum. apply is_size_t_nonneg in Hls.
  apply wrap_small. split.
  - by apply total_nonneg, Forall_take.
  - pose proof (total_take_le ls i Hls). lia.
Qed.
End segment_facts.

(** Every offset below the sum falls into exactly one slot of the prefix
    sums. *)
Lemma prefix_slot (ls : list Z) a :
  Forall (fun l => 0 ≤ l) ls → 0 ≤ a < total ls →
  ∃ i l, ls !! i = Some l ∧ total (take i ls) ≤ a < total (take i ls) + l.
Proof.
  intros Hls. revert a.
  induction Hls as [|l ls Hl Hls IH]; intros a Ha; simpl in *; [lia|].
  destruct (decide (a < l)) as [Hlt|Hge].
  - exists 0%nat, l. simpl. split; [done|lia].
  - destruct (IH (a - l)) as (i & l' & Hi & Hslot); [lia|].
    exists (S i), l'. simpl. split; [done|lia].
Qed.

(** C2, as the code has it.  On every constructed buffer the view of the
    [i]-th declared name has the requested length [L_i] and the first view
    starts at [0].  When moreover the lengths sum to less than [2^w]: each
    view ends where the next one starts, the last one ends at
    [total_size()], views of different names share no offset, and the
    offsets covered by the views are exactly those of [[0, total_size())]. *)
Theorem segments_tile `{Platform} {Tag : Type} `{EqDecision Tag}
    {U : Type} `{Element U} (Tags : list Tag) specs (m : Memory U) b m' :
  Buffer_ctor Tags specs m = (Ok b, m') →
  Forall is_size_t (n <$> specs) →
  (∀ i T, Tags !! i = Some T →
     ∃ v, get Tags T b = Ok v ∧ (n <$> specs) !! i = Some (v_size v)) ∧
  (∀ T v, Tags !! 0%nat = Some T → get Tags T b = Ok v → v_off v = 0) ∧
  (total (n <$> specs) < size_mod →
     (∀ i T T' v v', Tags !! i = Some T → Tags !! S i = Some T' →
        get Tags T b = Ok v → get Tags T' b = Ok v' →
        v_off v + v_size v = v_off v') ∧
     (∀ T v, Tags !! (N Tags - 1)%nat = Some T → get Tags T b = Ok v →
        total_size Tags b = Ok (v_off v + v_size v)) ∧
     (∀ T T' v v' a, T ≠ T' → get Tags T b = Ok v → get Tags T' b = Ok v' →
        in_view v a → ¬ in_view v' a) ∧
     (∃ t, total_size Tags b = Ok t ∧
        ∀ a, 0 ≤ a < t ↔ ∃ T v, get Tags T b = Ok v ∧ in_view v a)).
Proof.
  intros Hctor Hls.
  pose proof (ctor_lengths _ _ _ _ _ Hctor) as Hlen.
  pose proof (Hctor) as (_ & Hnd & _)%Buffer_ctor_Ok.
  assert (∀ i T v, Tags !! i = Some T → get Tags T b = Ok v →
            ∃ l, (n <$> specs) !! i = Some l ∧
                 v_off v = wrap (total (take i (n <$> specs))) ∧
                 v_size v = l) as Hview.
  { intros i T v Hi Hv.
    destruct (get_ctor _ _ _ _ _ false _ _ Hctor Hls Hi) as (l & Hl & Hget).
    unfold get in Hv. rewrite Hget in Hv. injection Hv as <-. eauto. }
  split_and!.
  - intros i T Hi.
    destruct (get_ctor _ _ _ _ _ false _ _ Hctor Hls Hi) as (l & Hl & Hget).
    eexists. split; [exact Hget|done].
  - intros T v HT Hv. destruct (Hview _ _ _ HT Hv) as (l & _ & -> & _). done.
  - intros Hsum.
    assert (∀ i T v, Tags !! i = Some T → get Tags T b = Ok v →
              v_off v = total (take i (n <$> specs)) ∧
              v_off v + v_size v = total (take (S i) (n <$> specs)))
      as Hrange.
    { intros i T v Hi Hv. destruct (Hview _ _ _ Hi Hv) as (l & Hl & Hoff & Hsz).
      rewrite boundary_exact in Hoff by done.
      rewrite (total_take_S _ _ _ Hl). lia. }
    pose proof (is_size_t_nonneg _ Hls) as Hnn.
    split_and!.
    + intros i T T' v v' Hi Hi' Hv Hv'.
      destruct (Hrange _ _ _ Hi Hv) as [_ ->].
      destruct (Hrange _ _ _ Hi' Hv') as [-> _]. done.
    + intros T v Hi Hv. destruct (Hrange _ _ _ Hi Hv) as [_ ->].
      rewrite (total_size_ctor _ _ _ _ _ Hctor).
      assert (Tags ≠ []) as Hne by (intros ->; discriminate).
      rewrite take_ge.
      * f_equal. apply wrap_small. split; [by apply total_nonneg|done].
      * rewrite Hlen. unfold N. destruct Tags; [done|]. simpl. lia.
    + intros T T' v v' a Hne Hv Hv' [Ha0 Ha1] [Ha0' Ha1'].
      destruct (get_ctor_inv _ _ _ _ _ _ _ _ Hctor Hls Hv) as (i & ? & Hi & _).
      destruct (get_ctor_inv _ _ _ _ _ _ _ _ Hctor Hls Hv') as (j & ? & Hj & _).
      destruct (Hrange _ _ _ Hi Hv) as [Hs He].
      destruct (Hrange _ _ _ Hj Hv') as [Hs' He'].
      assert (i ≠ j) as Hij by congruence.
      destruct (decide (i < j)%nat).
      * pose proof (total_take_mono (n <$> specs) (S i) j Hnn). lia.
      * pose proof (total_take_mono (n <$> specs) (S j) i Hnn). lia.
    + exists (total (n <$> specs)). split.
      { rewrite (total_size_ctor _ _ _ _ _ Hctor). f_equal.
        apply wrap_small. split; [by apply total_nonneg|done]. }
      intros a. split.
      * intros Ha. destruct (prefix_slot _ a Hnn Ha) as (i & l & Hl & Hslot).
        destruct (lookup_lt_is_Some_2 Tags i) as [T Hi].
        { rewrite <- Hlen. eapply lookup_lt_Some, Hl. }
        destruct (get_ctor _ _ _ _ _ false _ _ Hctor Hls Hi) as (l' & Hl' & Hget).
        exists T. eexists. split; [exact Hget|].
        unfold in_view. simpl. rewrite boundary_exact by done.
        assert (l' = l) as -> by congruence. done.
      * intros (T & v & Hv & [Ha0 Ha1]).
        destruct (get_ctor_inv _ _ _ _ _ _ _ _ Hctor Hls Hv) as (i & ? & Hi & _).
        destruct (Hrange _ _ _ Hi Hv) as [Hs He].
        assert (0 ≤ total (take i (n <$> specs)))
          by (by apply total_nonneg, Forall_take).
        pose proof (total_take_le (n <$> specs) (S i) Hnn). lia.
Qed.

Lemma segments_tile_witness :
  construct [Foo; Bar] basic_specs
    = (Ok basic_buffer,
       {| blocks := [Some (replicate 30 0)]; requests := [30] |}) ∧
  Forall (@is_size_t lp64) (n <$> basic_specs) ∧
  total (n <$> basic_specs) < @size_mod lp64 ∧
  (∃ v, @get lp64 _ _ [Foo; Bar] Bar basic_buffer = Ok v ∧
        (n <$> basic_specs) !! 1%nat = Some (v_size v)) ∧
  (∀ v v', @get lp64 _ _ [Foo; Bar] Foo basic_buffer = Ok v →
           @get lp64 _ _ [Foo; Bar] Bar basic_buffer = Ok v' →
           v_off v + v_size v = v_off v') ∧
  (∀ v v' a, @get lp64 _ _ [Foo; Bar] Foo basic_buffer = Ok v →
             @get lp64 _ _ [Foo; Bar] Bar basic_buffer = Ok v' →
             in_view v a → ¬ in_view v' a) ∧
  (∃ t, @total_size example_tag [Foo; Bar] basic_buffer = Ok t ∧
     ∀ a, 0 ≤ a < t ↔
       ∃ T v, @get lp64 _ _ [Foo; Bar] T basic_buffer = Ok v ∧ in_view v a).
Proof.
  assert (construct [Foo; Bar] basic_specs
    = (Ok basic_buffer,
       {| blocks := [Some (replicate 30 0)]; requests := [30] |})) as Hctor
    by reflexivity.
  assert (Forall (@is_size_t lp64) (n <$> basic_specs)) as Hls
    by size_t_values.
  assert (total (n <$> basic_specs) < @size_mod lp64) as Hsum
    by reflexivity.
  destruct (segments_tile _ _ _ _ _ Hctor Hls) as (Hlen & _ & Htile).
  destruct (Htile Hsum) as (Hchain & _ & Hdisj & Hcover).
  split_and!; [exact Hctor | exact Hls | exact Hsum | | | | exact Hcover].
  - apply (Hlen 1%nat Bar). reflexivity.
  - intros v v'. by apply (Hchain 0%nat Foo Bar).
  - intros v v' a. by apply Hdisj.
Defined.

(** C2 fails as worded: with the lengths [5], [2^64 - 3] and [4] the table
    is [5; 2; 6]; the views of [Foo] and [Baz] both contain offset [2], and
    the view of [Bar] contains offset [6], outside [[0, total_size())]. *)
Lemma segments_overlap :
  construct [Foo; Bar; Baz] overlapping_specs
    = (Ok overlapping_buffer,
       {| blocks := [Some (replicate 6 0)]; requests := [6] |}) ∧
  Forall (@is_size_t lp64) (n <$> overlapping_specs) ∧
  @get lp64 _ _ [Foo; Bar; Baz] Foo overlapping_buffer
    = Ok {| v_data := Some 0%nat; v_off := 0; v_size := 5; v_const := false |} ∧
  @get lp64 _ _ [Foo; Bar; Baz] Bar overlapping_buffer
    = Ok {| v_data := Some 0%nat; v_off := 5; v_size := 2 ^ 64 - 3;
            v_const := false |} ∧
  @get lp64 _ _ [Foo; Bar; Baz] Baz overlapping_buffer
    = Ok {| v_data := Some 0%nat; v_off := 2; v_size := 4; v_const := false |} ∧
  @total_size example_tag [Foo; Bar; Baz] overlapping_buffer = Ok 6 ∧
  in_view {| v_data := Some 0%nat; v_off := 0; v_size := 5; v_const := false |} 2 ∧
  in_view {| v_data := Some 0%nat; v_off := 2; v_size := 4; v_const := false |} 2 ∧
  in_view {| v_data := Some 0%nat; v_off := 5; v_size := 2 ^ 64 - 3;
             v_const := false |} 6 ∧
  5 + (2 ^ 64 - 3) ≠ 2.
Proof.
  split_and!; try reflexivity; try size_t_values;
    unfold in_view; simpl; lia.
Qed.

(** ** The accessor *)

(** C3, as the code has it.  For every constructed buffer and declared name,
    the name resolves through [index_of] (a function of the pack alone) to
    its position [i]; [get] reads [end = boundary[i]] and
    [start = (i == 0) ? 0 : boundary[i-1]] and returns the span built from
    the pointer operands [data_.get()] and [start] and the length
    [(end - start) mod 2^w], the block being the one the constructor
    allocated.  When the lengths are [std::size_t] values that sum to less
    than [2^w], [0 <= start <= end <= total_size()], the length is
    [end - start], the block is live with [total_size()] elements, and the
    span is the view over [[start, end)] of that block. *)
Theorem get_reads_boundaries `{Platform} {Tag : Type} `{EqDecision Tag}
    {U : Type} `{Element U} (Tags : list Tag) specs (m : Memory U) b m' T :
  Buffer_ctor Tags specs m = (Ok b, m') → T ∈ Tags →
  ∃ i end_ start,
    index_of T Tags = Ok i ∧ Tags !! i = Some T ∧
    array_at (ends_ b) i = Ok end_ ∧
    (if (i =? 0)%nat then Ok 0 else array_at (ends_ b) (i - 1)) = Ok start ∧
    data_ b = Some (length (blocks m)) ∧
    get Tags T b =
      Ok {| v_data := data_ b; v_off := start;
            v_size := wrap (end_ - start); v_const := false |} ∧
    get_const Tags T b =
      Ok {| v_data := data_ b; v_off := start;
            v_size := wrap (end_ - start); v_const := true |} ∧
    (Forall is_size_t (n <$> specs) → total (n <$> specs) < size_mod →
       0 ≤ start ∧ start ≤ end_ ∧ end_ ≤ total (n <$> specs) ∧
       wrap (end_ - start) = end_ - start ∧
       total_size Tags b = Ok (total (n <$> specs)) ∧
       owns m' b (total (n <$> specs)) ∧
       ∀ a, in_view {| v_data := data_ b; v_off := start;
                       v_size := wrap (end_ - start); v_const := false |} a
            ↔ start ≤ a < end_).
Proof.
  intros Hctor HT.
  pose proof (ctor_lengths _ _ _ _ _ Hctor) as Hlen.
  pose proof (total_size_ctor _ _ _ _ _ Hctor) as Htotal.
  apply Buffer_ctor_Ok in Hctor as (_ & _ & _ & _ & -> & ->).
  destruct (index_of_elem T Tags HT) as [i Hi].
  destruct (lookup_lt_is_Some_2 (n <$> specs) i) as [l Hl].
  { rewrite Hlen. eapply index_of_lt, Hi. }
  pose proof (boundary_end _ _ _ Hl) as Hend.
  pose proof (boundary_start (n <$> specs) i (lookup_lt_Some _ _ _ Hl)) as Hstart.
  exists i, (wrap (wrap (total (take i (n <$> specs))) + l)),
    (wrap (total (take i (n <$> specs)))).
  cbn [ends_ data_].
  split_and!; try done.
  - by apply index_of_lookup.
  - unfold get. erewrite get_impl_at; [done | exact Hi | exact Hend | exact Hstart].
  - unfold get_const.
    erewrite get_impl_at; [done | exact Hi | exact Hend | exact Hstart].
  - intros Hls Hsum.
    pose proof (is_size_t_nonneg _ Hls) as Hnn.
    pose proof (total_nonneg _ Hnn) as Htot.
    rewrite (boundary_exact _ i Hls Hsum).
    assert (0 ≤ total (take i (n <$> specs)))
      by (by apply total_nonneg, Forall_take).
    pose proof (total_take_le (n <$> specs) (S i) Hnn) as Hle.
    rewrite (total_take_S _ _ _ Hl) in Hle.
    rewrite Forall_lookup in Hls. destruct (Hls _ _ Hl) as [Hl0 Hl1].
    rewrite (wrap_small (_ + l)) by lia.
    assert (wrap (total (take i (n <$> specs)) + l
                  - total (take i (n <$> specs))) = l) as Hsize.
    { rewrite wrap_small; lia. }
    rewrite Htotal, !Hsize, (wrap_small (total _)) by lia.
    split_and!; try done; try lia.
    eexists _, _. simpl. split_and!; [done| |].
    + by rewrite lookup_app_r, Nat.sub_diag by lia.
    + rewrite length_replicate, Z2Nat.id; lia.
Qed.

Lemma get_reads_boundaries_witness :
  construct [Foo; Bar] basic_specs = (Ok basic_buffer, basic_memory) ∧
  (Bar ∈ [Foo; Bar]) ∧
  Forall (@is_size_t lp64) (n <$> basic_specs) ∧
  total (n <$> basic_specs) < @size_mod lp64 ∧
  ∃ i end_ start,
    index_of Bar [Foo; Bar] = Ok i ∧ [Foo; Bar] !! i = Some Bar ∧
    array_at (ends_ basic_buffer) i = Ok end_ ∧
    (if (i =? 0)%nat then Ok 0 else array_at (ends_ basic_buffer) (i - 1))
      = Ok start ∧
    data_ basic_buffer = Some 0%nat ∧
    @get lp64 _ _ [Foo; Bar] Bar basic_buffer =
      Ok {| v_data := data_ basic_buffer; v_off := start;
            v_size := @wrap lp64 (end_ - start); v_const := false |} ∧
    @get_const lp64 _ _ [Foo; Bar] Bar basic_buffer =
      Ok {| v_data := data_ basic_buffer; v_off := start;
            v_size := @wrap lp64 (end_ - start); v_const := true |} ∧
    0 ≤ start ∧ start ≤ end_ ∧ end_ ≤ total (n <$> basic_specs) ∧
    @wrap lp64 (end_ - start) = end_ - start ∧
    @total_size example_tag [Foo; Bar] basic_buffer
      = Ok (total (n <$> basic_specs)) ∧
    owns basic_memory basic_buffer (total (n <$> basic_specs)) ∧
    ∀ a, in_view {| v_data := data_ basic_buffer; v_off := start;
                    v_size := @wrap lp64 (end_ - start);
                    v_const := false |} a
         ↔ start ≤ a < end_.
Proof.
  assert (construct [Foo; Bar] basic_specs = (Ok basic_buffer, basic_memory))
    as Hctor by reflexivity.
  assert (Bar ∈ [Foo; Bar]) as HT by (apply contains_v_elem; reflexivity).
  assert (Forall (@is_size_t lp64) (n <$> basic_specs)) as Hls
    by size_t_values.
  assert (total (n <$> basic_specs) < @size_mod lp64) as Hsum
    by reflexivity.
  split_and!; [exact Hctor | exact HT | exact Hls | exact Hsum |].
  destruct (get_reads_boundaries _ _ _ _ _ _ Hctor HT)
    as (i & end_ & start & Hi & Hpos & Hend & Hstart & Hdata & Hget & Hgetc
        & Hexact).
  exists i, end_, start.
  destruct (Hexact Hls Hsum) as (? & ? & ? & ? & ? & ? & ?).
  split_and!; assumption.
Defined.

(** C3 fails as worded: in the table [5; 2; 6] the view of [Bar] is read
    from [start = 5] and [end = 2]; it starts at [5], is [2^64 - 3] elements
    long and so is not a view over [[5, 2)]. *)
Lemma get_view_not_start_end :
  construct [Foo; Bar; Baz] overlapping_specs
    = (Ok overlapping_buffer,
       {| blocks := [Some (replicate 6 0)]; requests := [6] |}) ∧
  index_of Bar [Foo; Bar; Baz] = Ok 1%nat ∧
  array_at (ends_ overlapping_buffer) 1 = Ok 2 ∧
  array_at (ends_ overlapping_buffer) 0 = Ok 5 ∧
  @get lp64 _ _ [Foo; Bar; Baz] Bar overlapping_buffer
    = Ok {| v_data := Some 0%nat; v_off := 5; v_size := 2 ^ 64 - 3;
            v_const := false |} ∧
  in_view {| v_data := Some 0%nat; v_off := 5; v_size := 2 ^ 64 - 3;
             v_const := false |} 5 ∧
  ¬ (5 ≤ 5 < 2) ∧
  5 + (2 ^ 64 - 3) ≠ 2.
Proof.
  split_and!; try reflexivity; unfold in_view; simpl; lia.
Qed.

(** ** Reading and writing through views *)

Section disjoint_views.
Context `{Platform}.
Context {Tag : Type} `{EqDecision Tag}.
Context {U : Type} `{Element U}.
Variable Tags : list Tag.
Implicit Types (specs : list (SegmentSize Tag)) (b : Buffer) (m : Memory U).
Implicit Types (v : View) (T : Tag).

Lemma ctor_owns specs m b m' :
  Buffer_ctor Tags specs m = (Ok b, m') →
  owns m' b (wrap (total (n <$> specs))).
Proof.
  intros (_ & _ & _ & _ & -> & ->)%Buffer_ctor_Ok.
  eexists _, _. simpl. split_and!; [done| |].
  - by rewrite lookup_app_r, Nat.sub_diag by lia.
  - rewrite length_replicate, Z2Nat.id; [done|]. apply wrap_range.
Qed.

(** Without overflow a view spans the exact prefix-sum slot of its tag. *)
Lemma view_slot specs m b m' c T v :
  Buffer_ctor Tags specs m = (Ok b, m') →
  Forall is_size_t (n <$> specs) → total (n <$> specs) < size_mod →
  get_impl Tags c T b = Ok v →
  ∃ i, Tags !! i = Some T ∧ v_data v = data_ b ∧ v_const v = c ∧
       v_off v = total (take i (n <$> specs)) ∧
       v_off v + v_size v = total (take (S i) (n <$> specs)) ∧
       0 ≤ v_off v ∧ v_off v + v_size v ≤ total (n <$> specs).
Proof.
  intros Hctor Hls Hsum Hv.
  destruct (get_ctor_inv _ _ _ _ _ _ _ _ Hctor Hls Hv) as (i & l & Hi & Hl & ->).
  pose proof (is_size_t_nonneg _ Hls) as Hnn.
  exists i. simpl. rewrite boundary_exact by done.
  rewrite (total_take_S _ _ _ Hl).
  split_and!; try done.
  - by apply total_nonneg, Forall_take.
  - rewrite <- (total_take_S _ _ _ Hl). by apply total_take_le.
Qed.

Lemma views_disjoint specs m b m' c c' T T' v v' a :
  Buffer_ctor Tags specs m = (Ok b, m') →
  Forall is_size_t (n <$> specs) → total (n <$> specs) < size_mod →
  T ≠ T' →
  get_impl Tags c T b = Ok v → get_impl Tags c' T' b = Ok v' →
  in_view v a → ¬ in_view v' a.
Proof.
  intros Hctor Hls Hsum Hne Hv Hv' [Ha0 Ha1] [Ha0' Ha1'].
  destruct (view_slot _ _ _ _ _ _ _ Hctor Hls Hsum Hv)
    as (i & Hi & _ & _ & Hs & He & _).
  destruct (view_slot _ _ _ _ _ _ _ Hctor Hls Hsum Hv')
    as (j & Hj & _ & _ & Hs' & He' & _).
  pose proof (is_size_t_nonneg _ Hls) as Hnn.
  assert (i ≠ j) as Hij by congruence.
  destruct (decide (i < j)%nat).
  - pose proof (total_take_mono (n <$> specs) (S i) j Hnn). lia.
  - pose proof (total_take_mono (n <$> specs) (S j) i Hnn). lia.
Qed.
End disjoint_views.

(** C4, as the code has it.  On a constructed buffer whose lengths sum to
    less than [2^w], in any state of the free store in which the buffer's
    block is live: a store at a position [k] within a segment's view is
    defined, a load at [k] through that view then returns the stored value,
    the block stays live and unresized, and every position of every other
    segment's view loads what it loaded before. *)
Theorem store_then_load `{Platform} {Tag : Type} `{EqDecision Tag}
    {U : Type} `{Element U} (Tags : list Tag) specs (m0 m1 m : Memory U)
    b T v k x :
  Buffer_ctor Tags specs m0 = (Ok b, m1) →
  Forall is_size_t (n <$> specs) → total (n <$> specs) < size_mod →
  owns m b (total (n <$> specs)) →
  get Tags T b = Ok v → 0 ≤ k < v_size v →
  owns m1 b (total (n <$> specs)) ∧
  ∃ m', span_store v k x m = (Ok tt, m') ∧
        span_load v k m' = Ok x ∧
        owns m' b (total (n <$> specs)) ∧
        (∀ T' v' k', T' ≠ T → get Tags T' b = Ok v' →
           span_load v' k' m' = span_load v' k' m).
Proof.
  intros Hctor Hls Hsum Hown Hv Hk. split.
  { pose proof (ctor_owns _ _ _ _ _ Hctor) as Hown1.
    rewrite wrap_small in Hown1; [done|].
    split; [by apply total_nonneg, is_size_t_nonneg|done]. }
  destruct (view_slot _ _ _ _ _ _ _ _ Hctor Hls Hsum Hv)
    as (i & Hi & Hdata & Hconst & Hs & He & Hoff & Hin).
  destruct Hown as (p & blk & Hp & Hblk & Hlen).
  destruct (span_store_defined v k x m p blk) as [m' Hstore];
    try done; [congruence|lia|].
  exists m'. split_and!; [done| | |].
  - by eapply span_load_store.
  - eapply span_store_owns; [done|]. by exists p, blk.
  - intros T' v' k' Hne Hv'.
    destruct (decide (0 ≤ k' < v_size v')) as [Hk'|Hk'].
    + eapply span_load_frame; [done|]. right. intros Heq.
      eapply (views_disjoint Tags _ _ _ _ _ _ T T' v v' (v_off v + k));
        try done; unfold in_view; lia.
    + unfold span_load, span_cell.
      assert (negb ((0 <=? k') && (k' <? v_size v')) = true) as ->; [|done].
      apply negb_true_iff, andb_false_iff.
      destruct (Z.leb_spec 0 k'), (Z.ltb_spec k' (v_size v')); auto; lia.
Qed.

Lemma store_then_load_witness :
  construct [Foo; Bar] basic_specs = (Ok basic_buffer, basic_memory) ∧
  Forall (@is_size_t lp64) (n <$> basic_specs) ∧
  total (n <$> basic_specs) < @size_mod lp64 ∧
  owns basic_memory basic_buffer (total (n <$> basic_specs)) ∧
  @get lp64 _ _ [Foo; Bar] Foo basic_buffer
    = Ok {| v_data := Some 0%nat; v_off := 0; v_size := 10; v_const := false |} ∧
  0 ≤ 9 < 10 ∧
  ∃ m',
    span_store {| v_data := Some 0%nat; v_off := 0; v_size := 10;
                  v_const := false |} 9 19 basic_memory = (Ok tt, m') ∧
    span_load {| v_data := Some 0%nat; v_off := 0; v_size := 10;
                 v_const := false |} 9 m' = Ok 19 ∧
    owns m' basic_buffer (total (n <$> basic_specs)) ∧
    (∀ T' v' k', T' ≠ Foo →
       @get lp64 _ _ [Foo; Bar] T' basic_buffer = Ok v' →
       span_load v' k' m' = span_load v' k' basic_memory).
Proof.
  assert (construct [Foo; Bar] basic_specs = (Ok basic_buffer, basic_memory))
    as Hctor by reflexivity.
  assert (Forall (@is_size_t lp64) (n <$> basic_specs)) as Hls
    by size_t_values.
  assert (total (n <$> basic_specs) < @size_mod lp64) as Hsum
    by reflexivity.
  assert (owns basic_memory basic_buffer (total (n <$> basic_specs))) as Hown.
  { exists 0%nat, (replicate 30 0). split_and!; reflexivity. }
  assert (@get lp64 _ _ [Foo; Bar] Foo basic_buffer
    = Ok {| v_data := Some 0%nat; v_off := 0; v_size := 10; v_const := false |})
    as Hv by reflexivity.
  assert (0 ≤ 9 < 10) as Hk by lia.
  split_and!; [exact Hctor | exact Hls | exact Hsum | exact Hown | exact Hv
              | lia | lia |].
  exact (proj2 (store_then_load _ _ _ _ _ _ _ _ 9 19 Hctor Hls Hsum Hown Hv Hk)).
Defined.

(** C4 fails as worded: in the table [5; 2; 6] the block has six elements;
    storing [7] at position [2] of the view of [Foo] changes what position
    [0] of the view of [Baz] loads. *)
Lemma store_changes_other_segment :
  construct [Foo; Bar; Baz] overlapping_specs
    = (Ok overlapping_buffer, overlapping_memory) ∧
  Forall (@is_size_t lp64) (n <$> overlapping_specs) ∧
  @get lp64 _ _ [Foo; Bar; Baz] Foo overlapping_buffer
    = Ok {| v_data := Some 0%nat; v_off := 0; v_size := 5; v_const := false |} ∧
  @get lp64 _ _ [Foo; Bar; Baz] Baz overlapping_buffer
    = Ok {| v_data := Some 0%nat; v_off := 2; v_size := 4; v_const := false |} ∧
  span_store {| v_data := Some 0%nat; v_off := 0; v_size := 5;
                v_const := false |} 2 7 overlapping_memory
    = (Ok tt, {| blocks := [Some [0; 0; 7; 0; 0; 0]]; requests := [6] |}) ∧
  span_load {| v_data := Some 0%nat; v_off := 2; v_size := 4;
               v_const := false |} 0 overlapping_memory = Ok 0 ∧
  span_load {| v_data := Some 0%nat; v_off := 2; v_size := 4;
               v_const := false |} 0
    {| blocks := [Some [0; 0; 7; 0; 0; 0]]; requests := [6] |} = Ok 7.
Proof.
  split_and!; try reflexivity. size_t_values.
Qed.

(** ** Empty segments and the empty pack *)

(** C5, as the code has it.  On a constructed buffer a segment whose
    requested length is [0] has an empty view.  A buffer over the empty pack
    has [total_size() == 0]; its construction still makes one request to the
    allocation function, for zero elements, and the buffer owns the empty
    block that request returns. *)
Theorem empty_segment_and_empty_pack `{Platform} {Tag : Type} `{EqDecision Tag}
    {U : Type} `{Element U} (Tags : list Tag) specs (m : Memory U) b m' :
  Buffer_ctor Tags specs m = (Ok b, m') →
  (∀ i T, Tags !! i = Some T → (n <$> specs) !! i = Some 0 →
     ∃ v, get Tags T b = Ok v ∧ v_size v = 0 ∧ ∀ a, ¬ in_view v a) ∧
  (Tags = [] →
     total_size Tags b = Ok 0 ∧
     data_ b = Some (length (blocks m)) ∧
     m' = {| blocks := blocks m ++ [Some []];
             requests := requests m ++ [0] |}).
Proof.
  intros Hctor.
  pose proof (total_size_ctor _ _ _ _ _ Hctor) as Htotal.
  apply Buffer_ctor_Ok in Hctor as (_ & Hnd & Htags & _ & -> & ->).
  split.
  - intros i T Hi Hl. eexists. split.
    + unfold get. eapply (get_impl_layout Tags false T _ _ i 0); try done.
      * by apply index_of_NoDup.
      * split; [done|apply size_mod_pos].
    + split; [done|]. unfold in_view. simpl. lia.
  - intros ->. apply fmap_nil_inv in Htags as ->. simpl in *. done.
Qed.

Lemma empty_segment_and_empty_pack_witness :
  (construct [Foo] [Segment Foo 0]
     = (Ok {| ends_ := [0]; data_ := Some 0%nat |},
        {| blocks := [Some []]; requests := [0] |}) ∧
   ∃ v, @get lp64 _ _ [Foo] Foo {| ends_ := [0]; data_ := Some 0%nat |} = Ok v ∧
        v_size v = 0 ∧ ∀ a, ¬ in_view v a) ∧
  (construct [] []
     = (Ok {| ends_ := []; data_ := Some 0%nat |},
        {| blocks := [Some []]; requests := [0] |}) ∧
   @total_size example_tag [] {| ends_ := []; data_ := Some 0%nat |} = Ok 0 ∧
   data_ {| ends_ := []; data_ := Some 0%nat |}
     = Some (length (blocks (@empty_memory Z))) ∧
   {| blocks := [Some []]; requests := [0] |}
     = {| blocks := blocks (@empty_memory Z) ++ [Some []];
          requests := requests (@empty_memory Z) ++ [0] |}).
Proof.
  assert (construct [Foo] [Segment Foo 0]
     = (Ok {| ends_ := [0]; data_ := Some 0%nat |},
        {| blocks := [Some []]; requests := [0] |})) as HctorB by reflexivity.
  assert (construct [] []
     = (Ok {| ends_ := []; data_ := Some 0%nat |},
        {| blocks := [Some []]; requests := [0] |})) as Hctor0 by reflexivity.
  split; (split; [assumption|]).
  - apply (proj1 (empty_segment_and_empty_pack _ _ _ _ _ HctorB) 0%nat Foo);
      reflexivity.
  - apply (proj2 (empty_segment_and_empty_pack _ _ _ _ _ Hctor0)). reflexivity.
Defined.

(** C5 fails as worded: constructing a buffer over the empty pack from an
    empty free store leaves a free store with one logged request, for [0]
    elements, and one empty block, which the buffer's pointer designates. *)
Lemma empty_pack_allocates :
  construct [] []
    = (Ok {| ends_ := []; data_ := Some 0%nat |},
       {| blocks := [Some []]; requests := [0] |}) ∧
  {| blocks := [Some []]; requests := [0] |} ≠ @empty_memory Z ∧
  data_ {| ends_ := []; data_ := Some 0%nat |} ≠ None.
Proof.
  split_and!; [reflexivity | discriminate | discriminate].
Qed.

(** ** Rejected programs *)

Lemma wrong_count_mismatch {Tag : Type} (Tags : list Tag)
    (specs : list (SegmentSize Tag)) :
  length specs ≠ length Tags → tag <$> specs ≠ Tags.
Proof. intros Hlen Heq. apply Hlen. by rewrite <- Heq, length_fmap. Qed.

(** C6.  A pack with a repeated name, or specifications that are not exactly
    the declared names, one each, in declared order, make the construction
    ill-formed: it yields no buffer, and the free store is returned as it
    was given, with no block added and no request logged. *)
Theorem malformed_configuration_rejected `{Platform} {Tag : Type}
    `{EqDecision Tag} {U : Type} `{Element U} (Tags : list Tag) specs
    (m : Memory U) :
  ¬ NoDup Tags ∨ tag <$> specs ≠ Tags →
  Buffer_ctor Tags specs m = (Err ill_formed, m) ∧
  ∀ b m', Buffer_ctor Tags specs m ≠ (Ok b, m').
Proof.
  intros Hbad.
  assert (Buffer_ctor Tags specs m = (Err ill_formed, m)) as Hrej.
  { apply Buffer_ctor_reject. right.
    destruct Hbad as [Hdup|Hne]; [left|by right].
    by apply unique_types_v_dup. }
  split; [done|]. intros b m'. rewrite Hrej. discriminate.
Qed.

Lemma malformed_configuration_rejected_witness :
  (* a repeated name *)
  (¬ NoDup [Foo; Foo] ∧
   construct [Foo; Foo] [Segment Foo 10; Segment Foo 20]
     = (Err ill_formed, empty_memory)) ∧
  (* wrong order *)
  (tag <$> [Segment Bar 20; Segment Foo 10] ≠ [Foo; Bar] ∧
   construct [Foo; Bar] [Segment Bar 20; Segment Foo 10]
     = (Err ill_formed, empty_memory)) ∧
  (* a name outside the pack *)
  (tag <$> [Segment Foo 10; Segment Baz 20] ≠ [Foo; Bar] ∧
   construct [Foo; Bar] [Segment Foo 10; Segment Baz 20]
     = (Err ill_formed, empty_memory)) ∧
  (* an omitted name *)
  (tag <$> [Segment Foo 10] ≠ [Foo; Bar] ∧
   construct [Foo; Bar] [Segment Foo 10] = (Err ill_formed, empty_memory)) ∧
  (* the same through [MakeSegmentedBuffer] *)
  @MakeSegmentedBuffer lp64 example_tag _ Z int_element
    [Segment Foo 10; Segment Foo 20] empty_memory
    = (Err ill_formed, empty_memory).
Proof.
  assert (¬ NoDup [Foo; Foo]) as Hdup
    by (apply unique_types_v_dup; reflexivity).
  assert (tag <$> [Segment Bar 20; Segment Foo 10] ≠ [Foo; Bar]) as Horder
    by discriminate.
  assert (tag <$> [Segment Foo 10; Segment Baz 20] ≠ [Foo; Bar]) as Hname
    by discriminate.
  assert (tag <$> [Segment Foo 10] ≠ [Foo; Bar]) as Hcount
    by (apply wrong_count_mismatch; discriminate).
  split_and!; try assumption.
  - apply (@malformed_configuration_rejected lp64 _ _ Z int_element
             [Foo; Foo] [Segment Foo 10; Segment Foo 20] empty_memory).
    by left.
  - apply (@malformed_configuration_rejected lp64 _ _ Z int_element
             [Foo; Bar] [Segment Bar 20; Segment Foo 10] empty_memory).
    by right.
  - apply (@malformed_configuration_rejected lp64 _ _ Z int_element
             [Foo; Bar] [Segment Foo 10; Segment Baz 20] empty_memory).
    by right.
  - apply (@malformed_configuration_rejected lp64 _ _ Z int_element
             [Foo; Bar] [Segment Foo 10] empty_memory).
    by right.
  - apply (@malformed_configuration_rejected lp64 _ _ Z int_element
             [Foo; Foo] [Segment Foo 10; Segment Foo 20] empty_memory).
    by left.
Defined.

(** C7.  A name outside the declared pack makes the call to [get]
    ill-formed, in both overloads and whatever the buffer: no view is
    returned for it. *)
Theorem undeclared_name_rejected `{Platform} {Tag : Type} `{EqDecision Tag}
    (Tags : list Tag) (T : Tag) (b : Buffer) :
  T ∉ Tags →
  get Tags T b = Err ill_formed ∧
  get_const Tags T b = Err ill_formed ∧
  ∀ v, get Tags T b ≠ Ok v ∧ get_const Tags T b ≠ Ok v.
Proof.
  intros HT. unfold get, get_const.
  rewrite !get_impl_undeclared by done.
  split_and!; [done | done |]. intros v. split; discriminate.
Qed.

Lemma undeclared_name_rejected_witness :
  (Baz ∉ [Foo; Bar]) ∧
  @get lp64 _ _ [Foo; Bar] Baz basic_buffer = Err ill_formed ∧
  @get_const lp64 _ _ [Foo; Bar] Baz basic_buffer = Err ill_formed ∧
  ∀ v, @get lp64 _ _ [Foo; Bar] Baz basic_buffer ≠ Ok v ∧
       @get_const lp64 _ _ [Foo; Bar] Baz basic_buffer ≠ Ok v.
Proof.
  assert (Baz ∉ [Foo; Bar]) as HT
    by (apply contains_v_not_elem; reflexivity).
  split; [exact HT|].
  exact (undeclared_name_rejected [Foo; Bar] Baz basic_buffer HT).
Defined.

(** ** A constructed buffer *)

Lemma get_impl_total `{Platform} {Tag : Type} `{EqDecision Tag}
    {U : Type} `{Element U} (Tags : list Tag) specs (m : Memory U) b m' c T :
  Buffer_ctor Tags specs m = (Ok b, m') → T ∈ Tags →
  ∃ v, get_impl Tags c T b = Ok v.
Proof.
  intros Hctor HT.
  pose proof (ctor_lengths _ _ _ _ _ Hctor) as Hlen.
  apply Buffer_ctor_Ok in Hctor as (_ & _ & _ & _ & -> & _).
  destruct (index_of_elem T Tags HT) as [i Hi].
  destruct (lookup_lt_is_Some_2 (n <$> specs) i) as [l Hl].
  { rewrite Hlen. eapply index_of_lt, Hi. }
  eexists. eapply get_impl_at; [exact Hi | |]; cbn [ends_].
  - by apply boundary_end.
  - apply boundary_start. eapply lookup_lt_Some, Hl.
Qed.

(** C8.  On a constructed buffer [get], in both overloads, returns a view
    for every declared name, and [total_size] returns a count; neither ends
    in an error.  Both read only the buffer's own members, which no element
    store goes through, so this holds for as long as the buffer exists. *)
Theorem ready_operations_total `{Platform} {Tag : Type} `{EqDecision Tag}
    {U : Type} `{Element U} (Tags : list Tag) specs (m : Memory U) b m' :
  Buffer_ctor Tags specs m = (Ok b, m') →
  (∀ T, T ∈ Tags →
     (∃ v, get Tags T b = Ok v) ∧ (∃ v, get_const Tags T b = Ok v)) ∧
  (∃ t, total_size Tags b = Ok t).
Proof.
  intros Hctor. split.
  - intros T HT. split; eapply get_impl_total; eauto.
  - eexists. eapply total_size_ctor, Hctor.
Qed.

Lemma ready_operations_total_witness :
  construct [Foo; Bar] basic_specs = (Ok basic_buffer, basic_memory) ∧
  (∀ T, T ∈ [Foo; Bar] →
     (∃ v, @get lp64 _ _ [Foo; Bar] T basic_buffer = Ok v) ∧
     (∃ v, @get_const lp64 _ _ [Foo; Bar] T basic_buffer = Ok v)) ∧
  (∃ t, @total_size example_tag [Foo; Bar] basic_buffer = Ok t).
Proof.
  assert (construct [Foo; Bar] basic_specs = (Ok basic_buffer, basic_memory))
    as Hctor by reflexivity.
  split; [exact Hctor|].
  exact (ready_operations_total _ _ _ _ _ Hctor).
Defined.

(** ** Copy and move *)

(** C9, as the code has it.  Copy construction and copy assignment are
    ill-formed.  A move hands the pointer and a copy of the boundary table
    to the destination: every view and the total size of the destination are
    those of the source before the move, and the destination owns what the
    source owned.  The source is left with a null pointer: it owns no block,
    destroying it releases nothing, and move-assigning another buffer onto
    it is defined and releases nothing.  The source is not emptied
    otherwise: it keeps its boundary table, so [total_size] returns on it
    what it returned before, and [get] returns for every name the view it
    returned before with its offset and its length, over the null pointer;
    no load or store through such a view is defined. *)
Theorem move_only `{Platform} {Tag : Type} `{EqDecision Tag}
    {U : Type} `{Element U} (Tags : list Tag) (src dst other : Buffer)
    (m : Memory U) :
  Buffer_copy src = Err ill_formed ∧
  Buffer_copy_assign dst src = Err ill_formed ∧
  ends_ (Buffer_move src).1 = ends_ src ∧
  data_ (Buffer_move src).1 = data_ src ∧
  (∀ T, get Tags T (Buffer_move src).1 = get Tags T src ∧
        get_const Tags T (Buffer_move src).1 = get_const Tags T src) ∧
  total_size Tags (Buffer_move src).1 = total_size Tags src ∧
  (∀ count, owns m src count → owns m (Buffer_move src).1 count) ∧
  data_ (Buffer_move src).2 = None ∧
  (∀ count, ¬ owns m (Buffer_move src).2 count) ∧
  Buffer_dtor (Buffer_move src).2 m = (Ok tt, m) ∧
  Buffer_move_assign (Buffer_move src).2 other m
    = (Ok (Buffer_move other), m) ∧
  ends_ (Buffer_move src).2 = ends_ src ∧
  total_size Tags (Buffer_move src).2 = total_size Tags src ∧
  (∀ c T v, get_impl Tags c T src = Ok v →
     get_impl Tags c T (Buffer_move src).2
     = Ok {| v_data := None; v_off := v_off v; v_size := v_size v;
             v_const := c |}) ∧
  (∀ c T v k x, get_impl Tags c T (Buffer_move src).2 = Ok v →
     v_data v = None ∧
     span_load v k m = Err undefined ∧
     (span_store v k x m).1 ≠ Ok tt).
Proof.
  split_and!; try done.
  - intros count (p & blk & Hp & _). discriminate.
  - intros c T v. unfold get_impl. cbn [Buffer_move snd ends_ data_].
    destruct (negb (contains_v T Tags)); [discriminate|].
    destruct (index_of T Tags) as [i|]; [|discriminate]. simpl.
    destruct (array_at (ends_ src) i); [|discriminate]. simpl.
    destruct (if (i =? 0)%nat then _ else _); [|discriminate].
    simpl. by intros [= <-].
  - intros c T v k x Hv.
    assert (v_data v = None) as Hnull.
    { unfold get_impl in Hv.
      destruct (negb (contains_v T Tags)); [discriminate|].
      destruct (index_of T Tags) as [i|]; [|discriminate]. simpl in Hv.
      destruct (array_at (ends_ src) i); [|discriminate]. simpl in Hv.
      destruct (if (i =? 0)%nat then _ else _); [|discriminate].
      simpl in Hv. by simplify_eq. }
    assert (span_cell v k m = Err undefined) as Hcell.
    { unfold span_cell. rewrite Hnull. by destruct (negb _). }
    split_and!; [done | |].
    + unfold span_load. by rewrite Hcell.
    + unfold span_store. rewrite Hcell. by destruct (v_const v).
Qed.

Lemma move_only_witness :
  @get_impl lp64 _ _ [Foo; Bar] false Bar basic_buffer
    = Ok {| v_data := Some 0%nat; v_off := 10; v_size := 20;
            v_const := false |} ∧
  owns basic_memory basic_buffer 30 ∧
  @get_impl lp64 _ _ [Foo; Bar] false Bar (Buffer_move basic_buffer).2
    = Ok {| v_data := None; v_off := 10; v_size := 20; v_const := false |} ∧
  span_load {| v_data := None; v_off := 10; v_size := 20; v_const := false |}
    0 basic_memory = Err undefined ∧
  (span_store {| v_data := None; v_off := 10; v_size := 20;
                 v_const := false |} 0 1 basic_memory).1 ≠ Ok tt ∧
  owns basic_memory (Buffer_move basic_buffer).1 30 ∧
  Buffer_dtor (Buffer_move basic_buffer).2 basic_memory = (Ok tt, basic_memory).
Proof.
  assert (@get_impl lp64 _ _ [Foo; Bar] false Bar basic_buffer
    = Ok {| v_data := Some 0%nat; v_off := 10; v_size := 20;
            v_const := false |}) as Hv by reflexivity.
  assert (owns basic_memory basic_buffer 30) as Hown.
  { exists 0%nat, (replicate 30 0). split_and!; reflexivity. }
  destruct (@move_only lp64 _ _ Z int_element [Foo; Bar]
              basic_buffer basic_buffer basic_buffer basic_memory)
    as (_ & _ & _ & _ & _ & _ & Hdst & _ & _ & Hdtor & _ & _ & _ & Hstale
        & Hnull).
  pose proof (Hstale false Bar _ Hv) as Hv'. simpl in Hv'.
  destruct (Hnull false Bar _ 0 1 Hv') as (_ & Hload & Hstore).
  split_and!; [exact Hv | exact Hown | exact Hv' | exact Hload | exact Hstore
              | by apply Hdst | exact Hdtor].
Defined.

(** C9 fails as worded: the moved-from source is not inert.  After the
    test's buffer is moved from, [total_size] on the source still returns
    [30] and [get] still returns a view of ten elements for [Foo], over the
    null pointer; a load at its first position is undefined. *)
Lemma moved_from_not_inert :
  data_ (Buffer_move basic_buffer).2 = None ∧
  @total_size example_tag [Foo; Bar] (Buffer_move basic_buffer).2 = Ok 30 ∧
  @get lp64 _ _ [Foo; Bar] Foo (Buffer_move basic_buffer).2
    = Ok {| v_data := None; v_off := 0; v_size := 10; v_const := false |} ∧
  10 ≠ 0 ∧
  span_load {| v_data := None; v_off := 0; v_size := 10; v_const := false |}
    0 basic_memory = Err undefined.
Proof. split_and!; try reflexivity. lia. Qed.

(** ** The repository's tests, run on the model

    [BasicSizesAndAccess], with the integers [100], [190], [200] and [295]
    standing for the doubles [1.0], [1.9], [2.0] and [2.95]. *)

Example BasicSizesAndAccess :
  ∃ b m levels results m',
    @MakeSegmentedBuffer lp64 example_tag _ Z int_element basic_specs
      empty_memory = (Ok b, m) ∧
    @get lp64 _ _ [Foo; Bar] Foo b = Ok levels ∧
    @get lp64 _ _ [Foo; Bar] Bar b = Ok results ∧
    v_size levels = 10 ∧ v_size results = 20 ∧
    @total_size example_tag [Foo; Bar] b = Ok 30 ∧
    (_ ← span_store levels 0 100;
     _ ← span_store levels 9 190;
     _ ← span_store results 0 200;
     span_store results 19 295) m = (Ok tt, m') ∧
    span_load levels 0 m' = Ok 100 ∧
    span_load levels 9 m' = Ok 190 ∧
    span_load results 0 m' = Ok 200 ∧
    span_load results 19 m' = Ok 295.
Proof.
  eexists _, _, _, _, _. split_and!; try reflexivity.
Qed.

(** [AsClassMemeber]: lengths [7] and [8] handed over by an enclosing
    object's constructor. *)
Example AsClassMember :
  construct [Foo; Bar] [Segment Foo 7; Segment Bar 8]
    = (Ok {| ends_ := [7; 15]; data_ := Some 0%nat |},
       {| blocks := [Some (replicate 15 0)]; requests := [15] |}).
Proof. reflexivity. Qed.

(** * Further properties of the header *)

(** ** The tag-pack metafunctions *)

(** X1.  [unique_types_v] holds exactly when no tag occurs at two positions
    of the pack, adjacent or not. *)
Theorem unique_types_v_positions {Tag : Type} `{EqDecision Tag}
    (Ts : list Tag) :
  unique_types_v Ts = true ↔
  ∀ i j T, Ts !! i = Some T → Ts !! j = Some T → i = j.
Proof. rewrite unique_types_v_NoDup. apply NoDup_alt. Qed.

(** X2.  The [requires contains_v<Tag, Tags...>] guard of [get] is exactly
    the condition under which [index_of<Tag, Tags...>::value] exists: with
    the guard satisfied the recursion never reaches the undefined primary
    template, and without it it always does. *)
Theorem contains_v_guards_index_of {Tag : Type} `{EqDecision Tag}
    (T : Tag) (Ts : list Tag) :
  (contains_v T Ts = true ↔ ∃ i, index_of T Ts = Ok i) ∧
  (contains_v T Ts = false ↔ index_of T Ts = Err ill_formed).
Proof.
  split.
  - rewrite contains_v_elem. split; [apply index_of_elem|].
    intros [i Hi]. eapply list_elem_of_lookup_2, index_of_lookup, Hi.
  - rewrite contains_v_not_elem. split; [apply index_of_not_elem|].
    intros Herr HT. destruct (index_of_elem T Ts HT) as [i Hi]. congruence.
Qed.

(** X3.  [index_of] yields the position of the first occurrence of the tag:
    the tag stands at the returned index and at no smaller one. *)
Theorem index_of_first_occurrence {Tag : Type} `{EqDecision Tag}
    (T : Tag) (Ts : list Tag) (i : nat) :
  index_of T Ts = Ok i ↔
  Ts !! i = Some T ∧ ∀ j, (j < i)%nat → Ts !! j ≠ Some T.
Proof.
  revert i. induction Ts as [|R Ts IH]; intros i; simpl.
  - split; [discriminate | intros [? _]; discriminate].
  - destruct (is_same_v T R) eqn:E.
    + apply is_same_v_true in E as ->. split.
      * intros [= <-]. split; [done | intros j Hj; lia].
      * intros [Hi Hfirst]. destruct i as [|i]; [done|].
        destruct (Hfirst 0%nat); [lia | done].
    + apply is_same_v_false in E. split.
      * destruct (index_of T Ts) as [k|e]; simpl; [|discriminate].
        intros [= <-]. destruct (proj1 (IH k) eq_refl) as [Hk Hfirst].
        split; [done|].
        intros [|j] Hj; simpl; [congruence | apply Hfirst; lia].
      * intros [Hi Hfirst]. destruct i as [|i]; simpl in Hi; [congruence|].
        assert (index_of T Ts = Ok i) as ->; [|done].
        apply IH. split; [done|]. intros j Hj. apply (Hfirst (S j)). lia.
Qed.

(** ** Outcomes of construction *)

Lemma fill_after_error {Tag : Type} `{Platform}
    (specs : list (SegmentSize Tag)) e :
  foldl (fun st s => st ≫= add (n s)) (Err e) specs = Err e.
Proof. induction specs as [|s specs IH]; [done|]. simpl. exact IH. Qed.

(** One specification too many and the loop writes past the array. *)
Lemma add_fold_overrun {Tag : Type} `{Platform}
    (specs : list (SegmentSize Tag)) cur i (ends : list Z) :
  (i ≤ length ends)%nat → (length ends < i + length specs)%nat →
  foldl (fun st s => st ≫= add (n s)) (Ok (cur, i, ends)) specs
  = Err undefined.
Proof.
  revert cur i ends.
  induction specs as [|s specs IH]; intros cur i ends Hi Hlen; simpl in *;
    [lia|].
  destruct (decide (i < length ends)%nat) as [Hlt|Hge].
  - apply IH; rewrite length_insert; lia.
  - apply fill_after_error.
Qed.

(** X4.  How a construction can end, for an element type that can be
    value-initialised.  The loop of the constructor stays inside [ends_]
    exactly when there are no more specifications than tags; the
    constructor's [requires] clause guarantees that, so no construction runs
    into undefined behaviour.  A construction yields a buffer exactly when
    the element type is admissible, the tags are distinct, the
    specifications carry the declared tags in order and the new-expression
    obtains storage for the wrapped sum of the lengths.  It is ill-formed,
    with the free store untouched, exactly when one of the first three
    fails.  When the allocation function refuses, the request is logged and
    no block is added; when the new-expression refuses the length itself,
    the free store is exactly as it was. *)
Theorem Buffer_ctor_outcomes `{Platform} {Tag : Type} `{EqDecision Tag}
    {U : Type} `{Element U} (Tags : list Tag) specs (m : Memory U) :
  ((∃ st, fill Tags specs = Ok st) ↔ (length specs ≤ N Tags)%nat) ∧
  (∀ m', Buffer_ctor Tags specs m ≠ (Err undefined, m')) ∧
  ((∃ b m', Buffer_ctor Tags specs m = (Ok b, m')) ↔
     BufferElement U = true ∧ NoDup Tags ∧ tag <$> specs = Tags ∧
     alloc_ok (wrap (total (n <$> specs))) = true) ∧
  (Buffer_ctor Tags specs m = (Err ill_formed, m) ↔
     ¬ (BufferElement U = true ∧ NoDup Tags ∧ tag <$> specs = Tags)) ∧
  (∀ m', Buffer_ctor Tags specs m = (Err bad_alloc, m') →
     blocks m' = blocks m ∧
     requests m' = requests m ++ [wrap (total (n <$> specs))]) ∧
  (∀ m', Buffer_ctor Tags specs m = (Err bad_array_new_length, m') →
     m' = m ∧ max_length < wrap (total (n <$> specs))).
Proof.
  split.
  { split.
    - intros [st Hst].
      destruct (decide (length specs ≤ N Tags)%nat) as [|Hover]; [done|].
      unfold fill in Hst. rewrite add_fold_overrun in Hst;
        [discriminate | rewrite length_replicate; lia..].
    - intros Hlen.
      destruct (add_fold specs 0 0%nat (replicate (N Tags) 0)) as [c Hc].
      { rewrite length_replicate. lia. }
      eexists. exact Hc. }
  destruct (decide (BufferElement U = true ∧ NoDup Tags ∧ tag <$> specs = Tags))
    as [(HU & Hnd & Htags)|Hbad].
  - pose proof Hnd as Huniq%unique_types_v_NoDup.
    pose proof (Buffer_ctor_unfold Tags specs m HU Huniq Htags) as Hctor.
    unfold mbind, M_bind, make_unique, mret, M_ret in Hctor.
    destruct (alloc_ok (wrap (total (n <$> specs)))) eqn:Halloc;
      [|destruct (Z.leb_spec (wrap (total (n <$> specs))) max_length)];
      rewrite Hctor; split_and!;
      try (intros m' [=]); try (split; [discriminate | tauto]);
      try done; try (by subst).
    + split; [done | eauto].
    + split; [intros (? & ? & [=]) | intros (_ & _ & _ & [=])].
    + split; [intros (? & ? & [=]) | intros (_ & _ & _ & [=])].
  - assert (Buffer_ctor Tags specs m = (Err ill_formed, m)) as Hrej.
    { apply Buffer_ctor_reject.
      destruct (BufferElement U) eqn:HU; [right|by left].
      destruct (UniqueTags Tags) eqn:Huniq; [right|by left].
      apply unique_types_v_NoDup in Huniq. intros Htags. by apply Hbad. }
    rewrite Hrej. split_and!; try (intros m' [=]); try done.
    split; [intros (? & ? & [=]) | intros (? & ? & ? & _); tauto].
Qed.

(** ** A freshly constructed buffer *)

(** X5.  [make_unique] value-initialises: right after a construction whose
    lengths sum to less than [2^w], every position of every segment's view
    loads [Underlier{}]. *)
Theorem fresh_buffer_value_initialised `{Platform} {Tag : Type}
    `{EqDecision Tag} {U : Type} `{Element U} (Tags : list Tag) specs
    (m : Memory U) b m' c T v k :
  Buffer_ctor Tags specs m = (Ok b, m') →
  Forall is_size_t (n <$> specs) → total (n <$> specs) < size_mod →
  get_impl Tags c T b = Ok v → 0 ≤ k < v_size v →
  span_load v k m' = Ok value_init.
Proof.
  intros Hctor Hls Hsum Hv Hk.
  destruct (view_slot _ _ _ _ _ _ _ _ Hctor Hls Hsum Hv)
    as (i & _ & Hdata & _ & _ & _ & Hoff & Hin).
  pose proof (total_nonneg _ (is_size_t_nonneg _ Hls)) as Hnn.
  apply Buffer_ctor_Ok in Hctor as (_ & _ & _ & _ & -> & ->).
  rewrite wrap_small by lia. simpl in Hdata.
  unfold span_load.
  assert (span_cell v k
            {| blocks := blocks m ++
                 [Some (replicate (Z.to_nat (total (n <$> specs))) value_init)];
               requests := requests m ++ [total (n <$> specs)] |}
          = Ok (length (blocks m), Z.to_nat (v_off v + k),
                replicate (Z.to_nat (total (n <$> specs))) value_init)) as ->.
  { apply span_cell_Ok. simpl.
    rewrite lookup_app_r, Nat.sub_diag, length_replicate by lia.
    split_and!; try done; lia. }
  simpl. rewrite lookup_replicate_2; [done | lia].
Qed.

Lemma fresh_buffer_value_initialised_witness :
  span_load {| v_data := Some 0%nat; v_off := 10; v_size := 20;
               v_const := false |} 19 basic_memory = Ok 0.
Proof.
  apply (@fresh_buffer_value_initialised lp64 example_tag _ Z int_element
           [Foo; Bar] basic_specs empty_memory basic_buffer basic_memory
           false Bar).
  - reflexivity.
  - size_t_values.
  - reflexivity.
  - reflexivity.
  - simpl. lia.
Defined.

(** X6.  Without overflow the boundary table is non-decreasing and bounded
    by [total_size()]: every boundary lies between [0] and the next one, and
    the last one is the element count of the allocation. *)
Theorem boundaries_monotone `{Platform} {Tag : Type} `{EqDecision Tag}
    {U : Type} `{Element U} (Tags : list Tag) specs (m : Memory U) b m'
    (i j : nat) e e' :
  Buffer_ctor Tags specs m = (Ok b, m') →
  Forall is_size_t (n <$> specs) → total (n <$> specs) < size_mod →
  (i ≤ j)%nat → ends_ b !! i = Some e → ends_ b !! j = Some e' →
  0 ≤ e ≤ e' ∧ e' ≤ total (n <$> specs) ∧
  total_size Tags b = Ok (total (n <$> specs)) ∧
  owns m' b (total (n <$> specs)).
Proof.
  intros Hctor Hls Hsum Hij He He'.
  pose proof (is_size_t_nonneg _ Hls) as Hnn.
  pose proof (total_nonneg _ Hnn) as Htot.
  pose proof (total_size_ctor _ _ _ _ _ Hctor) as Htotal.
  pose proof (ctor_owns _ _ _ _ _ Hctor) as Hown.
  rewrite wrap_small in Htotal, Hown by lia.
  apply Buffer_ctor_Ok in Hctor as (_ & _ & _ & _ & -> & _).
  cbn [ends_] in He, He'.
  rewrite prefix_sums_no_wrap in He, He' by (done || lia).
  assert (j < length (n <$> specs))%nat as Hj.
  { rewrite <- (length_prefix_sums 0). eapply lookup_lt_Some, He'. }
  rewrite prefix_sums_lookup in He, He' by lia.
  injection He as <-. injection He' as <-.
  pose proof (total_take_mono (n <$> specs) (S i) (S j) Hnn).
  pose proof (total_take_le (n <$> specs) (S j) Hnn).
  assert (0 ≤ total (take (S i) (n <$> specs)))
    by (by apply total_nonneg, Forall_take).
  split_and!; try done; lia.
Qed.

Lemma boundaries_monotone_witness :
  0 ≤ 10 ≤ 30 ∧ 30 ≤ total (n <$> basic_specs) ∧
  @total_size example_tag [Foo; Bar] basic_buffer
    = Ok (total (n <$> basic_specs)) ∧
  owns basic_memory basic_buffer (total (n <$> basic_specs)).
Proof.
  apply (@boundaries_monotone lp64 example_tag _ Z int_element
           [Foo; Bar] basic_specs empty_memory basic_buffer basic_memory
           0%nat 1%nat 10 30).
  - reflexivity.
  - size_t_values.
  - reflexivity.
  - lia.
  - reflexivity.
  - reflexivity.
Defined.

(** ** [MakeSegmentedBuffer] *)

(** X7.  [MakeSegmentedBuffer] takes the pack from the specifications
    themselves, so it can never be refused for a wrong name, count or order:
    for an element type that can be value-initialised (the only kind
    [Element] describes) the call is ill-formed exactly when the type fails
    [BufferElement] or two specifications carry the same tag. *)
Theorem MakeSegmentedBuffer_rejects `{Platform} {Tag : Type} `{EqDecision Tag}
    {U : Type} `{Element U} (specs : list (SegmentSize Tag)) (m : Memory U) :
  MakeSegmentedBuffer specs m = (Err ill_formed, m) ↔
  BufferElement U = false ∨ ¬ NoDup (tag <$> specs).
Proof.
  unfold MakeSegmentedBuffer. split.
  - intros Hrej.
    destruct (BufferElement U) eqn:HU; [right|by left].
    intros Hnd%unique_types_v_NoDup.
    rewrite Buffer_ctor_unfold in Hrej by done.
    unfold mbind, M_bind, make_unique, mret, M_ret in Hrej.
    destruct (alloc_ok _); [discriminate|]. by destruct (_ <=? _).
  - intros Hbad. apply Buffer_ctor_reject.
    destruct Hbad as [?|Hdup]; [by left|right; left].
    by apply unique_types_v_dup.
Qed.

(** X8.  A buffer made by [MakeSegmentedBuffer] gives every specification's
    tag a view of exactly the count that specification asked for, and its
    total size is the sum of the counts modulo [2^w]. *)
Theorem MakeSegmentedBuffer_views `{Platform} {Tag : Type} `{EqDecision Tag}
    {U : Type} `{Element U} (specs : list (SegmentSize Tag)) (m : Memory U)
    b m' (s : SegmentSize Tag) :
  MakeSegmentedBuffer specs m = (Ok b, m') →
  Forall is_size_t (n <$> specs) →
  s ∈ specs →
  (∃ v, get (tag <$> specs) (tag s) b = Ok v ∧ v_size v = n s ∧
        v_data v = data_ b) ∧
  total_size (tag <$> specs) b = Ok (wrap (total (n <$> specs))).
Proof.
  unfold MakeSegmentedBuffer. intros Hctor Hls [i Hi]%list_elem_of_lookup_1.
  split; [|by eapply total_size_ctor].
  destruct (get_ctor (tag <$> specs) specs m b m' false i (tag s) Hctor Hls)
    as (l & Hl & Hget).
  { by rewrite list_lookup_fmap, Hi. }
  rewrite list_lookup_fmap, Hi in Hl. injection Hl as <-.
  eexists. split; [exact Hget|done].
Qed.

Lemma MakeSegmentedBuffer_views_witness :
  (∃ v, @get lp64 _ _ (tag <$> basic_specs) (tag (Segment Bar 20)) basic_buffer
          = Ok v ∧
        v_size v = n (Segment Bar 20) ∧ v_data v = data_ basic_buffer) ∧
  @total_size example_tag (tag <$> basic_specs) basic_buffer
    = Ok (@wrap lp64 (total (n <$> basic_specs))).
Proof.
  apply (@MakeSegmentedBuffer_views lp64 example_tag _ Z int_element
           basic_specs empty_memory basic_buffer basic_memory (Segment Bar 20)).
  - reflexivity.
  - size_t_values.
  - apply list_elem_of_lookup. by exists 1%nat.
Defined.

(** ** Destruction and ownership transfer *)

Lemma get_impl_data `{Platform} {Tag : Type} `{EqDecision Tag}
    (Tags : list Tag) c T b v :
  get_impl Tags c T b = Ok v → v_data v = data_ b.
Proof.
  unfold get_impl. intros Hv.
  destruct (negb (contains_v T Tags)); [discriminate|].
  destruct (index_of T Tags) as [i|]; [|discriminate]. simpl in *.
  destruct (array_at (ends_ b) i) as [end_|]; [|discriminate]. simpl in *.
  destruct (if (i =? 0)%nat then _ else _) as [start|]; [|discriminate].
  simpl in *. by injection Hv as <-.
Qed.

(** A load only looks at the block its view points into. *)
Lemma span_load_ext {U : Type} (v : View) k (m m' : Memory U) :
  (∀ p, v_data v = Some p → blocks m' !! p = blocks m !! p) →
  span_load v k m' = span_load v k m.
Proof.
  intros Hsame. unfold span_load, span_cell.
  destruct (negb _); [done|].
  destruct (v_data v) as [p|]; [|done]. by rewrite Hsame.
Qed.

Lemma span_load_released {U : Type} (v : View) k (m : Memory U) p :
  v_data v = Some p → blocks m !! p = Some None →
  span_load v k m = Err undefined.
Proof.
  intros Hp Hgone. unfold span_load, span_cell. rewrite Hp, Hgone.
  by destruct (negb _).
Qed.

Lemma release_owned {U : Type} (m : Memory U) p blk :
  blocks m !! p = Some (Some blk) →
  release p m = (Ok tt, {| blocks := <[p := None]> (blocks m);
                           requests := requests m |}).
Proof. intros Hblk. unfold release. by rewrite Hblk. Qed.

(** X10.  In every state of the free store in which a buffer owns a live
    block, whatever has been stored in it, destroying the buffer releases
    that block and nothing else: every other block is as it was and no
    request is made.  Afterwards no load through a view that was obtained
    from the buffer is defined, and destroying the same buffer value a second
    time is undefined. *)
Theorem dtor_releases_block `{Platform} {Tag : Type} `{EqDecision Tag}
    {U : Type} (Tags : list Tag) (b : Buffer) (m : Memory U) count :
  owns m b count →
  ∃ p m', data_ b = Some p ∧
          Buffer_dtor b m = (Ok tt, m') ∧
          blocks m' !! p = Some None ∧
          length (blocks m') = length (blocks m) ∧
          (∀ q, q ≠ p → blocks m' !! q = blocks m !! q) ∧
          requests m' = requests m ∧
          (∀ c T v k, get_impl Tags c T b = Ok v →
             span_load v k m' = Err undefined) ∧
          Buffer_dtor b m' = (Err undefined, m').
Proof.
  intros (p & blk & Hp & Hblk & _).
  assert (p < length (blocks m))%nat as Hlt by (eapply lookup_lt_Some, Hblk).
  exists p. eexists. unfold Buffer_dtor. rewrite Hp.
  rewrite (release_owned _ _ _ Hblk). cbn [blocks requests].
  split_and!; try done.
  - by apply list_lookup_insert_eq.
  - apply length_insert.
  - intros q Hq. by apply list_lookup_insert_ne.
  - intros c T v k Hv%get_impl_data.
    apply (span_load_released v k _ p); [congruence|]. simpl.
    by apply list_lookup_insert_eq.
  - unfold release. cbn [blocks].
    by rewrite list_lookup_insert_eq.
Qed.

Lemma dtor_releases_block_witness :
  ∃ p m', data_ basic_buffer = Some p ∧
          Buffer_dtor basic_buffer
            {| blocks := [Some (<[2%nat := 7]> (replicate 30 0)); Some [1; 2]];
               requests := [30; 2] |} = (Ok tt, m') ∧
          blocks m' !! p = Some None ∧
          length (blocks m') = 2%nat ∧
          (∀ q, q ≠ p →
             blocks m' !! q
             = [Some (<[2%nat := 7]> (replicate 30 0)); Some [1; 2]] !! q) ∧
          requests m' = [30; 2] ∧
          (∀ c T v k, @get_impl lp64 _ _ [Foo; Bar] c T basic_buffer = Ok v →
             span_load v k m' = Err undefined) ∧
          Buffer_dtor basic_buffer m' = (Err undefined, m').
Proof.
  apply (@dtor_releases_block lp64 example_tag _ Z [Foo; Bar] basic_buffer
           {| blocks := [Some (<[2%nat := 7]> (replicate 30 0)); Some [1; 2]];
              requests := [30; 2] |} 30).
  exists 0%nat, (<[2%nat := 7]> (replicate 30 0)). split_and!; reflexivity.
Defined.

(** Assigning a buffer to itself by move releases nothing and leaves the
    buffer as it was. *)
Lemma move_assign_self_keeps {U : Type} (b : Buffer) (m : Memory U) :
  Buffer_move_assign_self b m
  = (Ok {| ends_ := ends_ b; data_ := data_ b |}, m).
Proof. reflexivity. Qed.

(** X11.  After a move the block is released exactly once, whichever of the
    two objects is destroyed first: both orders end in the state that
    destroying the original alone would have produced, and in it nobody owns
    the block. *)
Theorem move_then_destroy_both {U : Type} (b : Buffer) (m : Memory U) count :
  owns m b count →
  ∃ m', Buffer_dtor b m = (Ok tt, m') ∧
        (_ ← Buffer_dtor (Buffer_move b).1; Buffer_dtor (Buffer_move b).2) m
          = (Ok tt, m') ∧
        (_ ← Buffer_dtor (Buffer_move b).2; Buffer_dtor (Buffer_move b).1) m
          = (Ok tt, m') ∧
        (∀ count', ¬ owns m' b count') ∧
        (∀ q, Some q ≠ data_ b → blocks m' !! q = blocks m !! q).
Proof.
  intros (p & blk & Hp & Hblk & _).
  eexists. unfold Buffer_dtor, mbind, M_bind, mret, M_ret. cbn [Buffer_move fst snd data_].
  rewrite Hp, (release_owned _ _ _ Hblk).
  split_and!; try done.
  - intros count' (p' & blk' & Hp' & Hblk' & _). simpl in Hblk'.
    assert (p' = p) as -> by congruence.
    rewrite list_lookup_insert_eq in Hblk' by (eapply lookup_lt_Some, Hblk).
    discriminate.
  - intros q Hq. simpl. apply list_lookup_insert_ne. congruence.
Qed.

Lemma move_then_destroy_both_witness :
  ∃ m', Buffer_dtor basic_buffer basic_memory = (Ok tt, m') ∧
        (_ ← Buffer_dtor (Buffer_move basic_buffer).1;
         Buffer_dtor (Buffer_move basic_buffer).2) basic_memory = (Ok tt, m') ∧
        (_ ← Buffer_dtor (Buffer_move basic_buffer).2;
         Buffer_dtor (Buffer_move basic_buffer).1) basic_memory = (Ok tt, m') ∧
        (∀ count', ¬ owns m' basic_buffer count') ∧
        (∀ q, Some q ≠ data_ basic_buffer →
           blocks m' !! q = blocks basic_memory !! q).
Proof.
  apply (move_then_destroy_both basic_buffer basic_memory 30).
  exists 0%nat, (replicate 30 0). split_and!; reflexivity.
Defined.

(** X12.  Move assignment between two buffers that own different blocks
    releases the block the destination owned, hands the source's table and
    block to the destination and leaves the source with a null pointer.  No
    request is made, and every view that had been obtained from the source
    loads afterwards what it loaded before. *)
Theorem move_assign_transfers `{Platform} {Tag : Type} `{EqDecision Tag}
    {U : Type} `{Element U} (Tags : list Tag) (dst src : Buffer)
    (m : Memory U) c1 c2 :
  owns m dst c1 → owns m src c2 → data_ dst ≠ data_ src →
  ∃ m', Buffer_move_assign dst src m = (Ok (Buffer_move src), m') ∧
        owns m' (Buffer_move src).1 c2 ∧
        data_ (Buffer_move src).2 = None ∧
        (∀ c, ¬ owns m' dst c) ∧
        requests m' = requests m ∧
        (∀ c T v k, get_impl Tags c T src = Ok v →
           get_impl Tags c T (Buffer_move src).1 = Ok v ∧
           span_load v k m' = span_load v k m).
Proof.
  intros (p & blk & Hp & Hblk & _) (q & blkq & Hq & Hblkq & Hlen) Hne.
  assert (p ≠ q) as Hpq by congruence.
  eexists. unfold Buffer_move_assign, mbind, M_bind, mret, M_ret.
  cbn [Buffer_move]. rewrite Hp, (release_owned _ _ _ Hblk).
  split_and!; try done.
  - exists q, blkq. simpl. by rewrite list_lookup_insert_ne.
  - intros c (p' & blk' & Hp' & Hblk' & _). simpl in Hblk'.
    assert (p' = p) as -> by congruence.
    rewrite list_lookup_insert_eq in Hblk' by (eapply lookup_lt_Some, Hblk).
    discriminate.
  - intros c T v k Hv. split; [done|].
    apply get_impl_data in Hv. apply span_load_ext.
    intros p' Hp'. simpl. apply list_lookup_insert_ne. congruence.
Qed.

Lemma move_assign_transfers_witness :
  ∃ m', Buffer_move_assign basic_buffer
          {| ends_ := [7; 15]; data_ := Some 1%nat |}
          {| blocks := [Some (replicate 30 0); Some (replicate 15 1)];
             requests := [30; 15] |}
        = (Ok (Buffer_move {| ends_ := [7; 15]; data_ := Some 1%nat |}), m') ∧
        owns m' (Buffer_move {| ends_ := [7; 15]; data_ := Some 1%nat |}).1 15 ∧
        data_ (Buffer_move {| ends_ := [7; 15]; data_ := Some 1%nat |}).2
          = None ∧
        (∀ c, ¬ owns m' basic_buffer c) ∧
        requests m' = [30; 15] ∧
        (∀ c T v k,
           @get_impl lp64 _ _ [Foo; Bar] c T
             {| ends_ := [7; 15]; data_ := Some 1%nat |} = Ok v →
           @get_impl lp64 _ _ [Foo; Bar] c T
             (Buffer_move {| ends_ := [7; 15]; data_ := Some 1%nat |}).1 = Ok v ∧
           span_load v k m'
           = span_load v k
               {| blocks := [Some (replicate 30 0); Some (replicate 15 1)];
                  requests := [30; 15] |}).
Proof.
  apply (@move_assign_transfers lp64 example_tag _ Z int_element [Foo; Bar]
           basic_buffer {| ends_ := [7; 15]; data_ := Some 1%nat |}
           {| blocks := [Some (replicate 30 0); Some (replicate 15 1)];
              requests := [30; 15] |} 30 15).
  - exists 0%nat, (replicate 30 0). split_and!; reflexivity.
  - exists 1%nat, (replicate 15 1). split_and!; reflexivity.
  - discriminate.
Defined.

(** ** Element access on a constructed buffer *)

(** X13.  On a constructed buffer whose lengths sum to less than [2^w], as
    long as its block is live, a load through a segment's view is defined
    exactly at the positions below the view's length; the position one past
    the end, and every later one, is undefined. *)
Theorem load_defined_iff_in_view `{Platform} {Tag : Type} `{EqDecision Tag}
    {U : Type} `{Element U} (Tags : list Tag) specs (m0 m1 m : Memory U)
    b c T v k :
  Buffer_ctor Tags specs m0 = (Ok b, m1) →
  Forall is_size_t (n <$> specs) → total (n <$> specs) < size_mod →
  owns m b (total (n <$> specs)) →
  get_impl Tags c T b = Ok v →
  (∃ x, span_load v k m = Ok x) ↔ 0 ≤ k < v_size v.
Proof.
  intros Hctor Hls Hsum (p & blk & Hp & Hblk & Hlen) Hv.
  destruct (view_slot _ _ _ _ _ _ _ _ Hctor Hls Hsum Hv)
    as (i & _ & Hdata & _ & _ & _ & Hoff & Hin).
  split.
  - intros [x Hx]. unfold span_load in Hx.
    destruct (span_cell v k m) as [[[p' a] blk']|] eqn:Hcell; [|discriminate].
    by apply span_cell_Ok in Hcell as (Hk & _).
  - intros Hk. unfold span_load.
    assert (span_cell v k m = Ok (p, Z.to_nat (v_off v + k), blk)) as ->.
    { apply span_cell_Ok. split_and!; (done || congruence || lia). }
    simpl. destruct (lookup_lt_is_Some_2 blk (Z.to_nat (v_off v + k)))
      as [x ->]; [lia|]. by exists x.
Qed.

Lemma load_defined_iff_in_view_witness :
  ((∃ x, span_load {| v_data := Some 0%nat; v_off := 0; v_size := 10;
                      v_const := false |} 9 basic_memory = Ok x)
   ↔ 0 ≤ 9 < 10) ∧
  ((∃ x, span_load {| v_data := Some 0%nat; v_off := 0; v_size := 10;
                      v_const := false |} 10 basic_memory = Ok x)
   ↔ 0 ≤ 10 < 10).
Proof.
  assert (construct [Foo; Bar] basic_specs = (Ok basic_buffer, basic_memory))
    as Hctor by reflexivity.
  assert (Forall (@is_size_t lp64) (n <$> basic_specs)) as Hls
    by size_t_values.
  assert (total (n <$> basic_specs) < @size_mod lp64) as Hsum
    by reflexivity.
  assert (owns basic_memory basic_buffer (total (n <$> basic_specs))) as Hown.
  { exists 0%nat, (replicate 30 0). split_and!; reflexivity. }
  assert (@get_impl lp64 _ _ [Foo; Bar] false Foo basic_buffer
    = Ok {| v_data := Some 0%nat; v_off := 0; v_size := 10; v_const := false |})
    as Hv by reflexivity.
  split.
  - exact (load_defined_iff_in_view _ _ _ _ _ _ _ _ _ 9 Hctor Hls Hsum Hown Hv).
  - exact (load_defined_iff_in_view _ _ _ _ _ _ _ _ _ 10 Hctor Hls Hsum Hown Hv).
Defined.

(** ** Several buffers *)




(** ** Declaration order *)

Lemma total_Permutation (ls ls' : list Z) : ls ≡ₚ ls' → total ls = total ls'.
Proof. induction 1; simpl; lia. Qed.

(** X15.  The order in which the segments are declared decides the layout
    but not what the name-indexed accessor shows: two buffers constructed
    from the same specifications in different orders accept the same names,
    give each name a view of the same length and have the same total
    size. *)
Theorem declaration_order_irrelevant `{Platform} {Tag : Type}
    `{EqDecision Tag} {U : Type} `{Element U} (Tags Tags' : list Tag)
    specs specs' (m m0 : Memory U) b b' m' m0' :
  Buffer_ctor Tags specs m = (Ok b, m') →
  Buffer_ctor Tags' specs' m0 = (Ok b', m0') →
  specs ≡ₚ specs' →
  Forall is_size_t (n <$> specs) →
  total_size Tags b = total_size Tags' b' ∧
  (∀ T, (∃ v, get Tags T b = Ok v) ↔ (∃ v', get Tags' T b' = Ok v')) ∧
  (∀ T v v', get Tags T b = Ok v → get Tags' T b' = Ok v' →
     v_size v = v_size v').
Proof.
  intros Hctor Hctor' Hperm Hls.
  assert (Forall is_size_t (n <$> specs')) as Hls' by (by rewrite <- Hperm).
  pose proof Hctor as (_ & Hnd & Htags & _)%Buffer_ctor_Ok.
  pose proof Hctor' as (_ & Hnd' & Htags' & _)%Buffer_ctor_Ok.
  assert (Tags ≡ₚ Tags') as HpermT by (by rewrite <- Htags, <- Htags', Hperm).
  split_and!.
  - rewrite (total_size_ctor _ _ _ _ _ Hctor), (total_size_ctor _ _ _ _ _ Hctor').
    do 2 f_equal. apply total_Permutation. by rewrite Hperm.
  - intros T. split; intros [v Hv].
    + eapply get_impl_total; [exact Hctor'|]. rewrite <- HpermT.
      by destruct (get_ctor_inv _ _ _ _ _ _ _ _ Hctor Hls Hv)
        as (i & ? & ?%list_elem_of_lookup_2 & _).
    + eapply get_impl_total; [exact Hctor|]. rewrite HpermT.
      by destruct (get_ctor_inv _ _ _ _ _ _ _ _ Hctor' Hls' Hv)
        as (i & ? & ?%list_elem_of_lookup_2 & _).
  - intros T v v' Hv Hv'.
    destruct (get_ctor_inv _ _ _ _ _ _ _ _ Hctor Hls Hv)
      as (i & l & Hi & Hl & ->).
    destruct (get_ctor_inv _ _ _ _ _ _ _ _ Hctor' Hls' Hv')
      as (j & l' & Hj & Hl' & ->).
    simpl. rewrite <- Htags in Hi. rewrite <- Htags' in Hj.
    rewrite list_lookup_fmap in Hi. rewrite list_lookup_fmap in Hl.
    rewrite list_lookup_fmap in Hj. rewrite list_lookup_fmap in Hl'.
    destruct (specs !! i) as [s|] eqn:Hs; [|discriminate].
    destruct (specs' !! j) as [s'|] eqn:Hs'; [|discriminate].
    simpl in *. simplify_eq.
    assert (s' ∈ specs) as [k Hk]%list_elem_of_lookup_1.
    { rewrite Hperm. eapply list_elem_of_lookup_2, Hs'. }
    assert (k = i) as ->.
    { eapply (NoDup_lookup (tag <$> specs)); [done| |];
        rewrite list_lookup_fmap; [by rewrite Hk | by rewrite Hs; simpl; f_equal]. }
    congruence.
Qed.

Lemma declaration_order_irrelevant_witness :
  @total_size example_tag [Foo; Bar] basic_buffer
    = @total_size example_tag [Bar; Foo]
        {| ends_ := [20; 30]; data_ := Some 0%nat |} ∧
  (∀ T, (∃ v, @get lp64 _ _ [Foo; Bar] T basic_buffer = Ok v) ↔
        (∃ v', @get lp64 _ _ [Bar; Foo] T
                 {| ends_ := [20; 30]; data_ := Some 0%nat |} = Ok v')) ∧
  (∀ T v v', @get lp64 _ _ [Foo; Bar] T basic_buffer = Ok v →
     @get lp64 _ _ [Bar; Foo] T
       {| ends_ := [20; 30]; data_ := Some 0%nat |} = Ok v' →
     v_size v = v_size v').
Proof.
  apply (@declaration_order_irrelevant lp64 example_tag _ Z int_element
           [Foo; Bar] [Bar; Foo] basic_specs [Segment Bar 20; Segment Foo 10]
           empty_memory empty_memory basic_buffer
           {| ends_ := [20; 30]; data_ := Some 0%nat |}
           basic_memory basic_memory).
  - reflexivity.
  - reflexivity.
  - apply Permutation_swap.
  - size_t_values.
Defined.
